(** * wordanalyzer: the text splitter and the correction engine

    A shallow embedding of [analyzer/lib/text_splitter.py] and of the
    correction routines of [analyzer/lib/word_analyzer.py] and
    [analyzer/word_analyzer.py], with the properties of the segmentation and
    of the correction stated and proved over it.

    Python values are modelled as follows.
    - A [str] is a list of characters; characters are 8-bit ([ascii]) and
      [str.lower] maps 'A'..'Z' to 'a'..'z'.
    - A [float] is an element of a type [F] carrying the operations the code
      uses (the class [Float]); the order-theoretic facts the proofs need are
      the class [FloatOrder], the facts about [math.log] the class [FloatLog].
      Addition is not assumed associative. NaN is not modelled: no operation
      of the code produces one (costs are finite or +inf, and +inf is only
      ever added to).
    - An [int] that counts (a position, a length, a configured number of
      words) is a [nat].
    - A dict is a [gmap], a set a [gset], a list a [list].
    - A call either returns or raises: the type [result]. *)

From Stdlib Require Import ZArith Ascii String List Reals Lra Lia.
From stdpp Require Import base option list sorting gmap.

Open Scope nat_scope.

(** ** Outcomes of a call *)

Inductive exn := ValueError | TypeError | AssertionError | IndexError.

Inductive result (A : Type) : Type :=
| Ok (a : A)
| Raise (e : exn)
| OutOfFuel.

Arguments Ok {A} a.
Arguments Raise {A} e.
Arguments OutOfFuel {A}.

#[global] Instance result_ret : MRet result := fun A a => Ok a.
#[global] Instance result_bind : MBind result := fun A B f m =>
  match m with
  | Ok a => f a
  | Raise e => Raise e
  | OutOfFuel => OutOfFuel
  end.

#[global] Instance result_fmap : FMap result := fun A B f m =>
  match m with
  | Ok a => Ok (f a)
  | Raise e => Raise e
  | OutOfFuel => OutOfFuel
  end.

#[global] Instance exn_eq_dec : EqDecision exn.
Proof. solve_decision. Defined.

(** Whether the call raised [e]. *)
Definition raises {A} (e : exn) (r : result A) : bool :=
  match r with
  | Raise e' => bool_decide (e' = e)
  | _ => false
  end.

(** ** Strings *)

Definition str := list ascii.

Definition s (x : string) : str := list_ascii_of_string x.

(** [l[a:b]] for non-negative [a] and [b]. *)
Definition slice {A} (a b : nat) (l : list A) : list A := take (b - a) (drop a l).

Definition lower_char (c : ascii) : ascii :=
  let n := nat_of_ascii c in
  if (65 <=? n) && (n <=? 90) then ascii_of_nat (n + 32) else c.

Definition lower (t : str) : str := map lower_char t.

(** [[t.lower() for t in toks]] *)
Definition lower_all (toks : list str) : list str := fmap (M := list) lower toks.

(** [''.join(parts)] *)
Definition join (parts : list str) : str := concat parts.

(** [a < b] on [str]: lexicographic on code points. *)
Fixpoint str_ltb (a b : str) : bool :=
  match a, b with
  | _, [] => false
  | [], _ :: _ => true
  | x :: a', y :: b' =>
      let n := nat_of_ascii x in
      let m := nat_of_ascii y in
      if n <? m then true else if m <? n then false else str_ltb a' b'
  end.

(** ** Floats *)

Class Float (F : Type) := {
  f0 : F;                    (* the integer 0 a sum starts from *)
  finf : F;                  (* 9e999, which reads as +inf *)
  fadd : F -> F -> F;
  fmul : F -> F -> F;
  fof_nat : nat -> F;        (* int to float *)
  flog : F -> option F;      (* math.log, None where it raises ValueError *)
  fleb : F -> F -> bool      (* <= *)
}.

Section FloatOps.
Context {F : Type} `{Float F}.

Definition fle (x y : F) : Prop := fleb x y = true.

(** [==] and [<], as they are on floats that are not NaN. *)
Definition feqb (x y : F) : bool := fleb x y && fleb y x.
Definition fltb (x y : F) : bool := negb (fleb y x).

Definition flt (x y : F) : Prop := fltb x y = true.

(** [sum(xs)]: left to right, from 0. *)
Definition fsum (xs : list F) : F := fold_left fadd xs f0.

Definition py_log (x : F) : result F :=
  match flog x with
  | Some y => Ok y
  | None => Raise ValueError
  end.

End FloatOps.

(** What the proofs about [split] use of the order and of the sum. Each
    holds of IEEE doubles that are not NaN: [<=] is total and transitive,
    rounding keeps [+] monotone, and +inf is the greatest value and absorbs
    what is added to it. *)
Class FloatOrder (F : Type) `{Float F} : Prop := {
  fle_total : forall x y : F, fle x y \/ fle y x;
  fle_trans : forall x y z : F, fle x y -> fle y z -> fle x z;
  fadd_mono_l : forall x y z : F, fle x y -> fle (fadd x z) (fadd y z);
  fle_inf : forall x : F, fle x finf;
  fadd_inf : forall x : F, fle finf (fadd x finf)
}.

(** What the proofs about [__init__] use of [math.log], of the product and
    of the conversion of an [int]: the logarithm is defined exactly on the
    positive numbers, is 0 at 1, positive at every integer from 2 on, and
    monotone; the product of positive numbers is positive, and [n * 0.0] is
    [0.0]. Each holds of the real numbers (instance [real_log]). *)
Class FloatLog (F : Type) `{Float F} : Prop := {
  flog_dom : forall x : F, flog x = None <-> fle x f0;
  flog_one : forall z : F, flog (fof_nat 1) = Some z -> fle z f0 /\ fle f0 z;
  flog_mono : forall x y a b : F, fle x y -> flog x = Some a -> flog y = Some b -> fle a b;
  flog_of_nat_pos : forall n (l : F), 2 <= n -> flog (fof_nat n) = Some l -> flt f0 l;
  fof_nat_mono : forall n m, n <= m -> fle (fof_nat n : F) (fof_nat m);
  fof_nat_pos : forall n, 0 < n -> flt (f0 : F) (fof_nat n);
  fmul_zero : forall n (z : F), fle z f0 -> fle f0 z -> fle (fmul (fof_nat n) z) f0;
  fmul_pos : forall x y : F, flt f0 x -> flt f0 y -> flt f0 (fmul x y);
  fmul_mono_l : forall x y z : F, fle f0 z -> fle x y -> fle (fmul x z) (fmul y z)
}.

(** ** Python objects that may stand where a word is expected *)

Inductive pyobj := PyStr (w : str) | PyInt (n : Z) | PyNone.

Definition is_str (o : pyobj) : bool :=
  match o with PyStr _ => true | _ => false end.

Definition strs_of (ws : list pyobj) : list str :=
  omap (fun o => match o with PyStr w => Some w | _ => None end) ws.

(** ** text_splitter.py *)

Section TextSplitter.
Context {F : Type} `{Float F}.

Record TextSplitter := {
  word_cost : gmap str F;
  max_len : nat
}.

(** [log((number + 1) * log(len(words)))] *)
Definition rank_cost (number N : nat) : result F :=
  l ← py_log (fof_nat N);
  py_log (fmul (fof_nat (number + 1)) l).

(** [dict(pairs)]: a later pair overrides an earlier one with the same key. *)
Definition dict_of (pairs : list (str * F)) : gmap str F :=
  fold_left (fun m p => <[p.1 := p.2]> m) pairs ∅.

Fixpoint cost_pairs (N : nat) (number : nat) (ws : list str) : result (list (str * F)) :=
  match ws with
  | [] => Ok []
  | w :: ws' =>
      c ← rank_cost number N;
      ps ← cost_pairs N (number + 1) ws';
      Ok ((w, c) :: ps)
  end.

(** [TextSplitter.__init__(words)]; [None] is Python's [None]. *)
Definition TextSplitter_init (words : option (list pyobj)) : result TextSplitter :=
  match words with
  | None => Raise ValueError
  | Some [] => Raise ValueError
  | Some ws =>
      if negb (forallb is_str ws) then Raise TypeError
      else
        ps ← cost_pairs (length ws) 0 (strs_of ws);
        Ok {| word_cost := dict_of ps;
              max_len := max_list (length <$> strs_of ws) |}
  end.

Variable ts : TextSplitter.
Variable text : str.

(** [word_cost.get(t.lower(), 9e999)] *)
Definition tok_cost (t : str) : F := default finf (word_cost ts !! lower t).

(** The list [costs] of [best_match(index)], for the cost array [cost]. *)
Definition candidates (cost : list F) (index : nat) : list (F * nat) :=
  imap (fun match_length match_cost =>
          (fadd match_cost (tok_cost (slice (index - match_length - 1) index text)),
           match_length + 1))
       (reverse (slice (Nat.max 0 (index - max_len ts)) index cost)).

(** [a < b] on the pairs of [costs]: the first components decide unless they
    are equal. *)
Definition pair_ltb (a b : F * nat) : bool :=
  if feqb a.1 b.1 then a.2 <? b.2 else fltb a.1 b.1.

(** [min(costs)]: the first item that no later item is less than. *)
Fixpoint min_from (best : F * nat) (l : list (F * nat)) : F * nat :=
  match l with
  | [] => best
  | x :: l' => min_from (if pair_ltb x best then x else best) l'
  end.

Definition py_min (l : list (F * nat)) : result (F * nat) :=
  match l with
  | [] => Raise ValueError
  | x :: l' => Ok (min_from x l')
  end.

Definition best_match (cost : list F) (index : nat) : result (F * nat) :=
  py_min (candidates cost index).

(** The loop that builds the cost array, over the values [idxs] of [i]. *)
Fixpoint forward (idxs : list nat) (cost : list F) : result (list F) :=
  match idxs with
  | [] => Ok cost
  | i :: idxs' =>
      m ← best_match cost i;
      forward idxs' (cost ++ [m.1])
  end.

(** The backtracking loop. Each round takes at least one character off [i],
    so [fuel = i] rounds are enough (lemma [split_returns]). *)
Fixpoint backtrack (fuel : nat) (cost : list F) (i : nat) (out : list str)
  : result (list str) :=
  if i =? 0 then Ok out
  else match fuel with
       | 0 => OutOfFuel
       | S fuel' =>
           m ← best_match cost i;
           match cost !! i with
           | None => Raise IndexError
           | Some c =>
               if feqb m.1 c
               then backtrack fuel' cost (i - m.2) (out ++ [slice (i - m.2) i text])
               else Raise AssertionError
           end
       end.

Definition split : result (list str) :=
  cost ← forward (seq 1 (length text)) [f0];
  out ← backtrack (length text) cost (length text) [];
  Ok (reverse out).

End TextSplitter.

Arguments TextSplitter F : clear implicits.

(** [TextSplitter.split] on any object: the [isinstance] guard. *)
Definition TextSplitter_split {F} `{Float F} (ts : TextSplitter F) (o : pyobj)
  : result (list str) :=
  match o with
  | PyStr text => split ts text
  | _ => Raise TypeError
  end.

(** ** analyzer/lib/word_analyzer.py: the correction engine *)

(** An item of the list [arr] of [_get_correct_words]: a word, or a list
    [[cost, word]]. *)
Inductive pyitem (F : Type) : Type := IStr (w : str) | IList (c : F) (w : str).
Arguments IStr {F} w.
Arguments IList {F} c w.

(** [if w:] on a [str]. *)
Definition truthy (w : str) : bool := negb (bool_decide (w = [])).

(** [range(0, stop, step)] for a step that is not negative. *)
Definition range_step (stop step : nat) : result (list nat) :=
  if step =? 0 then Raise ValueError
  else Ok ((fun k => k * step) <$> seq 0 ((stop + step - 1) / step)).

Section WordAnalyzer.
Context {F : Type} `{Float F}.

(** The attributes [build] sets that the correction reads. [tree_find] is
    [self.tree.find], the query of the BK-tree of the package pybktree: the
    pairs (distance, word) of the indexed words within the given distance. *)
Record WordAnalyzer := {
  splitter : TextSplitter F;
  tree_find : str -> nat -> list (nat * str);
  default_cost : F;
  number_similar_words : nat;
  distance : nat;
  threshold : nat;
  number_of_corrected_words : nat;
  divisors : gmap nat (list nat)
}.

Variable a : WordAnalyzer.

(** [self._get_clear_word]. Its helpers [get_indices_incorrect_symbols] and
    [leet_transform] (analyzer/lib/methods.py) are not among the sources,
    and it sorts lists that hold sets, which [<] does not order totally; the
    correction only uses the string it returns, so it is a parameter here. *)
Variable _get_clear_word : str -> result str.

Definition _get_total_cost (text : str) : result F :=
  parts ← split (splitter a) text;
  Ok (fsum ((fun word => default (default_cost a) (word_cost (splitter a) !! word)) <$> parts)).

(** [x < y] on lists [[cost, word]]. *)
Definition entry_ltb (x y : F * str) : bool :=
  if feqb x.1 y.1 then str_ltb x.2 y.2 else fltb x.1 y.1.

Fixpoint insert_sorted (x : F * str) (l : list (F * str)) : list (F * str) :=
  match l with
  | [] => [x]
  | y :: l' => if entry_ltb x y then x :: y :: l' else y :: insert_sorted x l'
  end.

(** [sorted(l)]: stable, equal items keep their order. *)
Definition py_sorted (l : list (F * str)) : list (F * str) :=
  fold_left (fun acc x => insert_sorted x acc) l [].

(** [[[self._get_total_cost(it[1]), it[1]] for it in found_words]] *)
Fixpoint cost_entries (found_words : list (nat * str)) : result (list (F * str)) :=
  match found_words with
  | [] => Ok []
  | it :: rest =>
      c ← _get_total_cost it.2;
      arr ← cost_entries rest;
      Ok ((c, it.2) :: arr)
  end.

Definition _get_similar_words (word : str) : result (option (list str)) :=
  arr ← cost_entries (tree_find a word (distance a));
  match arr with
  | [] => Ok None
  | _ => Ok (Some ((take (number_similar_words a) (py_sorted arr)).*2))
  end.

(** The loop over the divisors of [_detect_repeated_word]. *)
Fixpoint detect_loop (word : str) (ds : list nat) : result (option str) :=
  match ds with
  | [] => Ok None
  | divisor :: ds' =>
      let part := take divisor word in
      starts ← range_step (length word) divisor;
      if forallb (fun start => bool_decide (slice start (start + divisor) word = part)) starts
      then Ok (Some part)
      else detect_loop word ds'
  end.

Definition _detect_repeated_word (word : str) : result (option str) :=
  if length word =? 0 then Ok None
  else match divisors a !! length word with
       | None | Some [] => Ok None
       | Some ds => detect_loop word ds
       end.

(** The inner function of [_get_correct_words]; [indices] is [(i, j)]. *)
Fixpoint replace_correcting_parts (parts similar_words : list str) (i j : nat)
  : result (list (F * str)) :=
  match similar_words with
  | [] => Ok []
  | similar_word :: rest =>
      let full_word := join (take i parts ++ [similar_word] ++ drop (j + 1) parts) in
      cost ← _get_total_cost full_word;
      full_words_with_cost ← replace_correcting_parts parts rest i j;
      Ok ((cost, full_word) :: full_words_with_cost)
  end.

(** [for part in parts: ...] of the branch for too few parts. *)
Fixpoint few_parts_loop (parts : list str) (arr : list str) : result (list str) :=
  match parts with
  | [] => Ok arr
  | part :: rest =>
      similar ← _get_similar_words part;
      match similar with
      | Some (w :: ws) => few_parts_loop rest (arr ++ w :: ws)
      | _ => few_parts_loop rest arr
      end
  end.

(** [for j in range(i + minimum_parts, max_range + i + 1): ...] *)
Fixpoint splice_loop (parts : list str) (i : nat) (js : list nat)
    (evaluated_words : list (F * str)) : result (list (F * str)) :=
  match js with
  | [] => Ok evaluated_words
  | j :: js' =>
      let spliced_word := join (slice i j parts) in
      similar_words ← _get_similar_words spliced_word;
      match similar_words with
      | Some (w :: ws) =>
          full_words ← replace_correcting_parts parts (w :: ws) i (j - 1);
          splice_loop parts i js' (evaluated_words ++ full_words)
      | _ => splice_loop parts i js' evaluated_words
      end
  end.

(** [for i in range(len(parts)): ...] *)
Fixpoint parts_loop (parts : list str) (idxs : list nat)
    (evaluated_words : list (F * str)) : result (list (F * str)) :=
  match idxs with
  | [] => Ok evaluated_words
  | i :: idxs' =>
      let max_range :=
        if threshold a <=? length parts - i then threshold a else length parts - i in
      evaluated_words ← splice_loop parts i (seq (i + 2) (max_range + i + 1 - (i + 2)))
                                    evaluated_words;
      parts_loop parts idxs' evaluated_words
  end.

(** [set(arr)]: a list cannot be a member of a set. *)
Fixpoint py_set (arr : list (pyitem F)) : result (gset str) :=
  match arr with
  | [] => Ok ∅
  | IStr w :: rest => r ← py_set rest; Ok ({[w]} ∪ r)
  | IList _ _ :: _ => Raise TypeError
  end.

(** The word the correction works on: [clear_word] when it is given and not
    empty, else the cleared [word]; then its repeated part, if it has one. *)
Definition cleaned_word (word : str) (clear_word : option str) : result str :=
  word ← match clear_word with
         | Some cw => if truthy cw then Ok cw else _get_clear_word word
         | None => _get_clear_word word
         end;
  repeated_word ← _detect_repeated_word word;
  Ok match repeated_word with
     | Some r => if truthy r then r else word
     | None => word
     end.

Definition _get_correct_words (word : str) (clear_word : option str) : result (gset str) :=
  let minimum_parts := 2 in
  word ← cleaned_word word clear_word;
  parts ← split (splitter a) word;
  let evaluated_words : list (F * str) := [] in
  if length parts <? minimum_parts then
    arr ← few_parts_loop parts [];
    let arr : list (pyitem F) :=
      (fun it => IList it.1 it.2) <$> take (number_of_corrected_words a) (py_sorted evaluated_words) in
    let arr := if truthy word then arr ++ [IStr word] else arr in
    py_set arr
  else
    evaluated_words ← parts_loop parts (seq 0 (length parts)) evaluated_words;
    let arr := take (number_of_corrected_words a) (py_sorted evaluated_words) in
    let arr := if truthy word then arr ++ [(f0, word)] else arr in
    Ok (list_to_set (arr.*2)).

(** [stemmer.stem] of nltk's [SnowballStemmer('english')], a function from
    strings to strings of a package that is not among the sources: a
    parameter. *)
Variable stem : str -> str.

(** [if cost:] on what [word_cost.get(part)] returns: [None] and [0.0] are
    false, every other float is true. *)
Definition cost_truthy (cost : option F) : bool :=
  match cost with
  | Some c => negb (feqb c f0)
  | None => false
  end.

(** [for part in splitter.split(word): ...] of [_get_base_parts]. *)
Fixpoint base_parts_loop (parts : list str) (basics : gset str) : gset str :=
  match parts with
  | [] => basics
  | part :: rest =>
      let part := lower part in
      let cost := word_cost (splitter a) !! part in
      if cost_truthy cost
      then base_parts_loop rest (basics ∪ {[ lower (stem part) ]})
      else base_parts_loop rest basics
  end.

Definition _get_base_parts (word : str) : result (gset str) :=
  parts ← split (splitter a) word;
  Ok (base_parts_loop parts ∅).

End WordAnalyzer.

Arguments WordAnalyzer F : clear implicits.

(** ** analyzer/word_analyzer.py: the correction routine of the module at
    the top of the package *)

Module Top.
Section Top.
Context {F : Type} `{Float F}.

Record WordAnalyzer := {
  splitter : TextSplitter F;
  tree_find : str -> nat -> list (nat * str);
  default_cost : F
}.

Variable a : WordAnalyzer.

(** [self.get_clear_word]: a parameter, as [_get_clear_word] above (its helper
    [get_all_combinations] is not among the sources either). *)
Variable get_clear_word : str -> result str.

Definition get_total_cost (text : str) : result F :=
  parts ← split (splitter a) text;
  Ok (fsum ((fun word => default (default_cost a) (word_cost (splitter a) !! word)) <$> parts)).

Fixpoint cost_entries (found_words : list (nat * str)) : result (list (F * str)) :=
  match found_words with
  | [] => Ok []
  | it :: rest =>
      c ← get_total_cost it.2;
      arr ← cost_entries rest;
      Ok ((c, it.2) :: arr)
  end.

Definition get_similar_words (word : str) (number_similar_words distance : nat)
  : result (option (list str)) :=
  arr ← cost_entries (tree_find a word distance);
  match arr with
  | [] => Ok None
  | _ => Ok (Some ((take number_similar_words (py_sorted arr)).*2))
  end.

Fixpoint replace_correcting_parts (parts similar_words : list str) (i j : nat)
  : result (list (F * str)) :=
  match similar_words with
  | [] => Ok []
  | similar_word :: rest =>
      let full_word := join (take i parts ++ [similar_word] ++ drop j parts) in
      cost ← get_total_cost full_word;
      full_words_with_cost ← replace_correcting_parts parts rest i j;
      Ok ((cost, full_word) :: full_words_with_cost)
  end.

Fixpoint splice_loop (parts : list str) (i : nat) (js : list nat)
    (evaluated_words : list (F * str)) : result (list (F * str)) :=
  match js with
  | [] => Ok evaluated_words
  | j :: js' =>
      let spliced_word := join (slice i j parts) in
      similar_words ← get_similar_words spliced_word 4 1;
      match similar_words with
      | Some (w :: ws) =>
          full_words ← replace_correcting_parts parts (w :: ws) i (j - 1);
          splice_loop parts i js' (evaluated_words ++ full_words)
      | _ => splice_loop parts i js' evaluated_words
      end
  end.

Fixpoint parts_loop (threshold : nat) (parts : list str) (idxs : list nat)
    (evaluated_words : list (F * str)) : result (list (F * str)) :=
  match idxs with
  | [] => Ok evaluated_words
  | i :: idxs' =>
      let max_range :=
        if threshold <=? length parts - i then threshold else length parts - i in
      evaluated_words ← splice_loop parts i (seq (i + 2) (max_range + i + 1 - (i + 2)))
                                    evaluated_words;
      parts_loop threshold parts idxs' evaluated_words
  end.

(** [get_correct_words(word, threshold, number_of_corrected_words)]; it
    returns a list. *)
Definition get_correct_words (word : str) (threshold number_of_corrected_words : nat)
  : result (list str) :=
  word ← get_clear_word word;
  parts ← split (splitter a) word;
  evaluated_words ← parts_loop threshold parts (seq 0 (length parts)) [];
  let arr := take number_of_corrected_words (py_sorted evaluated_words) in
  Ok (arr.*2).

End Top.

Arguments WordAnalyzer F : clear implicits.

End Top.

(** ** Two instances of the floats *)

(** A number, or +inf. *)

Inductive ext (A : Type) : Type := Fin (a : A) | Inf.
Arguments Fin {A} a.
Arguments Inf {A}.

(** The floats the examples run on: fixed point with 16 fractional bits. *)
Module Fx.

Definition one : Z := 65536.
Definition ln2 : Z := 45426.

(** The fractional bits of the binary logarithm of [m / one], for
    [one <= m < 2 * one], by repeated squaring. *)
Fixpoint log2_frac (n : nat) (m bit acc : Z) : Z :=
  match n with
  | 0 => acc
  | S n' =>
      let m2 := (m * m / one)%Z in
      if (2 * one <=? m2)%Z
      then log2_frac n' (m2 / 2)%Z (bit / 2)%Z (acc + bit)%Z
      else log2_frac n' m2 (bit / 2)%Z acc
  end.

Definition log (z : Z) : option Z :=
  if (z <=? 0)%Z then None
  else
    let e := Z.log2 z in
    let m := if (e <=? 16)%Z then (z * 2 ^ (16 - e))%Z else (z / 2 ^ (e - 16))%Z in
    let lg2 := ((e - 16) * one + log2_frac 16 m (one / 2) 0)%Z in
    Some (lg2 * ln2 / one)%Z.

Definition add (x y : ext Z) : ext Z :=
  match x, y with
  | Fin a, Fin b => Fin (a + b)%Z
  | _, _ => Inf
  end.

Definition mul (x y : ext Z) : ext Z :=
  match x, y with
  | Fin a, Fin b => Fin (a * b / one)%Z
  | _, _ => Inf
  end.

Definition leb (x y : ext Z) : bool :=
  match x, y with
  | _, Inf => true
  | Inf, Fin _ => false
  | Fin a, Fin b => (a <=? b)%Z
  end.

Definition flog (x : ext Z) : option (ext Z) :=
  match x with
  | Fin a => Fin <$> log a
  | Inf => Some Inf
  end.

End Fx.

#[global] Instance fx_float : Float (ext Z) := {|
  f0 := Fin 0%Z;
  finf := Inf;
  fadd := Fx.add;
  fmul := Fx.mul;
  fof_nat := fun n => Fin (Z.of_nat n * Fx.one)%Z;
  flog := Fx.flog;
  fleb := Fx.leb
|}.

(** ** The floats of the statements about [math.log]: the real numbers,
    with the natural logarithm *)

Module Re.

Definition add (x y : ext R) : ext R :=
  match x, y with
  | Fin a, Fin b => Fin (a + b)%R
  | _, _ => Inf
  end.

Definition mul (x y : ext R) : ext R :=
  match x, y with
  | Fin a, Fin b => Fin (a * b)%R
  | _, _ => Inf
  end.

Definition leb (x y : ext R) : bool :=
  match x, y with
  | _, Inf => true
  | Inf, Fin _ => false
  | Fin a, Fin b => if Rle_dec a b then true else false
  end.

Definition flog (x : ext R) : option (ext R) :=
  match x with
  | Fin a => if Rlt_dec 0 a then Some (Fin (ln a)) else None
  | Inf => Some Inf
  end.

End Re.

#[global] Instance real_float : Float (ext R) := {|
  f0 := Fin 0%R;
  finf := Inf;
  fadd := Re.add;
  fmul := Re.mul;
  fof_nat := fun n => Fin (INR n);
  flog := Re.flog;
  fleb := Re.leb
|}.

(** ** The data of the examples *)

(** Modelled from the spec: the index (the package pybktree over the
    Damerau distance of the package similarity) is not among the sources.
    [edit_distance] counts insertions, deletions, substitutions and
    transpositions of two adjacent characters; [index_find] lists the indexed
    words within distance [d] of the query, nearest first. The theorems
    below hold for every [tree_find]; only the examples use this one. *)
Fixpoint edit_distance_fuel (fuel : nat) (a b : str) : nat :=
  match fuel with
  | 0 => length a + length b
  | S fuel' =>
      match a, b with
      | [], _ => length b
      | _, [] => length a
      | x :: a', y :: b' =>
          let subst := (if bool_decide (x = y) then 0 else 1) + edit_distance_fuel fuel' a' b' in
          let indel := 1 + Nat.min (edit_distance_fuel fuel' a' b) (edit_distance_fuel fuel' a b') in
          let best := Nat.min subst indel in
          match a', b' with
          | x2 :: a'', y2 :: b'' =>
              if bool_decide (x = y2) && bool_decide (x2 = y)
              then Nat.min best (1 + edit_distance_fuel fuel' a'' b'')
              else best
          | _, _ => best
          end
      end
  end.

Definition edit_distance (a b : str) : nat :=
  edit_distance_fuel (length a + length b) a b.

Definition index_find (words : list str) (query : str) (d : nat) : list (nat * str) :=
  flat_map (fun k => (fun w => (k, w)) <$> filter (fun w => edit_distance query w = k) words)
           (seq 0 (S d)).

(** Modelled from the spec: [factorize] (analyzer/lib/methods.py) is not
    among the sources; the spec gives the divisors 1 and 2 for the length 4.
    [build] records the divisors of every length from 1 to the longest word. *)
Definition factorize (n : nat) : list nat :=
  filter (fun d => n `mod` d = 0) (seq 1 (n - 1)).

Definition build_divisors (max_len : nat) : gmap nat (list nat) :=
  list_to_map ((fun n => (n, factorize n)) <$> seq 1 max_len).

(** A frequency list to run the code on, and the splitter built from it. *)
Definition demo_words : list str :=
  [s "the"; s "she"; s "of"; s "and"; s "cat"; s "a"].

Definition demo_ts : TextSplitter (ext Z) :=
  match TextSplitter_init (Some (PyStr <$> demo_words)) with
  | Ok ts => ts
  | _ => {| word_cost := ∅; max_len := 0 |}
  end.

(** The analyzer [build] makes from [demo_words] with the default
    configuration (4 similar words, distance 1, threshold 2, 2 corrected
    words) for words of up to 12 characters. *)
Definition demo_an : WordAnalyzer (ext Z) := {|
  splitter := demo_ts;
  tree_find := index_find demo_words;
  default_cost := Fin (1000 * Fx.one)%Z;
  number_similar_words := 4;
  distance := 1;
  threshold := 2;
  number_of_corrected_words := 2;
  divisors := build_divisors 12
|}.

(** The same analyzer with a table of divisors that records a 0, which the
    table [build] makes never does. *)
Definition demo_an_zero : WordAnalyzer (ext Z) := {|
  splitter := demo_ts;
  tree_find := index_find demo_words;
  default_cost := Fin (1000 * Fx.one)%Z;
  number_similar_words := 4;
  distance := 1;
  threshold := 2;
  number_of_corrected_words := 2;
  divisors := {[ 1 := [0] ]}
|}.

(** Clearing, on the words of the examples: they hold no character to clear,
    and come back as they are. *)
Definition demo_clear (word : str) : result str := Ok word.

Definition demo_top_an : Top.WordAnalyzer (ext Z) := {|
  Top.splitter := demo_ts;
  Top.tree_find := index_find demo_words;
  Top.default_cost := Fin (100 * Fx.one)%Z
|}.

(** ** The vocabulary of the claims *)

Section Vocabulary.
Context {F : Type} `{Float F}.

(** Every key of [word_cost] is at most [max_len] characters long. *)
Definition words_bounded (ts : TextSplitter F) : Prop :=
  forall k, is_Some (word_cost ts !! k) -> length k <= max_len ts.

(** [p] cuts [text] into substrings, none of them empty. *)
Definition partition_of (p : list str) (text : str) : Prop :=
  concat p = text /\ Forall (fun t => t <> []) p.

(** The summed cost of a sequence of tokens: each token costs its entry in the
    word-cost map, looked up lower-cased, or the infinite sentinel. *)
Definition total_cost (ts : TextSplitter F) (p : list str) : F :=
  fsum (tok_cost ts <$> p).

(** [a] is not after [b]: the cost is not greater, and on equal costs the
    length is not greater. *)
Definition pair_le (a b : F * nat) : Prop :=
  fle a.1 b.1 /\ (fle b.1 a.1 -> a.2 <= b.2).

(** The invariant of the cost array: entry 0 is 0, and every later entry is
    the cost [best_match] returns at its index. *)
Definition cost_inv (ts : TextSplitter F) (text : str) (cost : list F) : Prop :=
  cost !! 0 = Some f0 /\
  forall i c, 1 <= i -> cost !! i = Some c ->
    exists ml, best_match ts text cost i = Ok (c, ml).

(** [best_match] prefers the longest (resp. the shortest) of the candidates
    whose total cost equals the cost it returns. *)
Definition prefers_longest (ts : TextSplitter F) text cost index : Prop :=
  forall m, best_match ts text cost index = Ok m ->
    forall x, x ∈ candidates ts text cost index -> feqb x.1 m.1 = true -> x.2 <= m.2.

Definition prefers_shortest (ts : TextSplitter F) text cost index : Prop :=
  forall m, best_match ts text cost index = Ok m ->
    forall x, x ∈ candidates ts text cost index -> feqb x.1 m.1 = true -> m.2 <= x.2.

(** The stored cost of the word at every position is the rank cost of that
    position; the stored costs do not decrease along the list. *)
Definition stored_at_rank (ws : list str) (ts : TextSplitter F) : Prop :=
  forall i w, ws !! i = Some w ->
    exists c, rank_cost i (length ws) = Ok c /\ word_cost ts !! w = Some c.

Definition stored_monotone (ws : list str) (ts : TextSplitter F) : Prop :=
  forall i j wi wj ci cj, i <= j -> ws !! i = Some wi -> ws !! j = Some wj ->
    word_cost ts !! wi = Some ci -> word_cost ts !! wj = Some cj -> fle ci cj.

(** The test [_detect_repeated_word] makes of one divisor: every chunk of
    the word that starts at one of [starts] equals the first. *)
Definition chunks_equal (word : str) (divisor : nat) (starts : list nat) : bool :=
  forallb (fun start => bool_decide (slice start (start + divisor) word = take divisor word))
          starts.

(** The order of the items [[cost, word]] by their cost alone. *)
Definition cost_le (x y : F * str) : Prop := fle x.1 y.1.

(** [c] is what [_get_correct_words] makes of [parts] at one place: the run
    [parts[i:j]], of 2 parts or more and of [threshold] parts at most, is
    replaced by a word the index finds for the run joined into one word. *)
Definition splice_of (a : WordAnalyzer F) (parts : list str) (c : str) : Prop :=
  exists i j sw,
    i + 2 <= j <= length parts /\ j - i <= threshold a /\
    sw ∈ (tree_find a (join (slice i j parts)) (distance a)).*2 /\
    c = join (take i parts ++ [sw] ++ drop j parts).

(** The same for [get_correct_words] of analyzer/word_analyzer.py, which
    queries the index at distance 1 and keeps the last part of the run. *)
Definition top_splice_of (a : Top.WordAnalyzer F) (threshold : nat)
    (parts : list str) (c : str) : Prop :=
  exists i j sw,
    i + 2 <= j <= length parts /\ j - i <= threshold /\
    sw ∈ (Top.tree_find a (join (slice i j parts)) 1).*2 /\
    c = join (take i parts ++ [sw] ++ drop (j - 1) parts).

End Vocabulary.

(** * Properties *)

Lemma bind_Ok {A B} (x : A) (f : A -> result B) : (Ok x ≫= f) = f x.
Proof. reflexivity. Qed.

(** ** The order on the candidates of [best_match] *)

Section PairOrder.
Context {F : Type} `{FloatOrder F}.

Lemma fle_refl (x : F) : fle x x.
Proof. by destruct (fle_total x x). Qed.

Lemma feqb_refl (x : F) : feqb x x = true.
Proof. unfold feqb. by rewrite (fle_refl x). Qed.

Lemma fltb_false (x y : F) : fltb x y = false <-> fle y x.
Proof. unfold fltb, fle. by destruct (fleb y x). Qed.

Lemma fltb_true (x y : F) : fltb x y = true -> fle x y.
Proof.
  unfold fltb. intros Hlt. destruct (fle_total x y) as [Hle | Hle]; [done |].
  unfold fle in Hle. by rewrite Hle in Hlt.
Qed.

Lemma feqb_true (x y : F) : feqb x y = true <-> fle x y /\ fle y x.
Proof. unfold feqb, fle. by rewrite andb_true_iff. Qed.

Lemma pair_ltb_false (a b : F * nat) : pair_ltb b a = false <-> pair_le a b.
Proof.
  unfold pair_ltb, pair_le. destruct (feqb b.1 a.1) eqn:Heq.
  - apply feqb_true in Heq as [Hba Hab]. rewrite Nat.ltb_ge. tauto.
  - rewrite fltb_false. split; [| tauto].
    intros Hab. split; [done |]. intros Hba.
    assert (feqb b.1 a.1 = true) by (by apply feqb_true). congruence.
Qed.

Lemma pair_ltb_true (a b : F * nat) : pair_ltb a b = true -> pair_le a b.
Proof.
  unfold pair_ltb, pair_le. destruct (feqb a.1 b.1) eqn:Heq.
  - apply feqb_true in Heq as [Hab Hba]. rewrite Nat.ltb_lt. intros; split; [done | lia].
  - intros Hlt. split; [by apply fltb_true |]. intros Hba.
    unfold fltb in Hlt. unfold fle in Hba. by rewrite Hba in Hlt.
Qed.

Lemma pair_le_trans (a b c : F * nat) : pair_le a b -> pair_le b c -> pair_le a c.
Proof.
  intros [Hab Hab2] [Hbc Hbc2]. split; [by eapply fle_trans |].
  intros Hca.
  assert (a.2 <= b.2) by (apply Hab2; by eapply fle_trans).
  assert (b.2 <= c.2) by (apply Hbc2; by eapply fle_trans).
  lia.
Qed.

Lemma min_from_elem (best : F * nat) l :
  min_from best l = best \/ min_from best l ∈ l.
Proof.
  revert best. induction l as [| x l IH]; intros best; simpl; [by left |].
  destruct (IH (if pair_ltb x best then x else best)) as [-> | Hin].
  - destruct (pair_ltb x best); [right; left | by left].
  - right. by right.
Qed.

Lemma min_from_least (best : F * nat) l :
  pair_le (min_from best l) best /\ forall y, y ∈ l -> pair_le (min_from best l) y.
Proof.
  revert best. induction l as [| x l IH]; intros best; simpl.
  - split; [split; [apply fle_refl | done] |]. intros y Hy. by apply elem_of_nil in Hy.
  - destruct (IH (if pair_ltb x best then x else best)) as [Hb Hl].
    destruct (pair_ltb x best) eqn:Hlt.
    + apply pair_ltb_true in Hlt. split; [by eapply pair_le_trans |].
      intros y [-> | Hy]%elem_of_cons; [done | by apply Hl].
    + apply pair_ltb_false in Hlt. split; [done |].
      intros y [-> | Hy]%elem_of_cons; [by eapply pair_le_trans | by apply Hl].
Qed.

Lemma py_min_spec l (m : F * nat) :
  py_min l = Ok m -> m ∈ l /\ forall y, y ∈ l -> pair_le m y.
Proof.
  destruct l as [| x l]; simpl; [done |]. intros [= <-].
  destruct (min_from_least x l) as [Hx Hl]. split.
  - destruct (min_from_elem x l) as [-> | Hin]; [left | by right].
  - intros y [-> | Hy]%elem_of_cons; [done | by apply Hl].
Qed.

End PairOrder.

(** ** The cost array and the backtracking of [split] *)

(** [lia], with [max_len ts] abstracted to a variable first. *)
Ltac len_lia :=
  try (let L := fresh "L" in set (L := max_len _) in *; clearbody L); lia.

Section SplitProofs.
Context {F : Type} `{FloatOrder F}.
Variable ts : TextSplitter F.
Variable text : str.

Lemma slice_lookup {A} (a b i : nat) (l : list A) (x : A) :
  slice a b l !! i = Some x <-> i < b - a /\ l !! (a + i) = Some x.
Proof. unfold slice. rewrite lookup_take_Some, lookup_drop. tauto. Qed.

Lemma slice_length {A} (a b : nat) (l : list A) :
  b <= length l -> length (slice a b l) = b - a.
Proof. intros Hb. unfold slice. rewrite length_take, length_drop. len_lia. Qed.

Lemma slice_take {A} (a b : nat) (l : list A) : slice a b (take b l) = slice a b l.
Proof.
  apply list_eq. intros i. apply option_eq. intros x.
  rewrite !slice_lookup, lookup_take_Some. split; [tauto |].
  intros [Hi Hx]. repeat split; [done.. | len_lia].
Qed.

Lemma take_slice {A} (a b : nat) (l : list A) :
  a <= b -> take a l ++ slice a b l = take b l.
Proof.
  intros Hab. unfold slice. rewrite take_take_drop. f_equal. len_lia.
Qed.

Lemma candidates_take cost index :
  candidates ts text (take index cost) index = candidates ts text cost index.
Proof. unfold candidates. by rewrite slice_take. Qed.

Lemma candidates_app cost extra index :
  index <= length cost ->
  candidates ts text (cost ++ extra) index = candidates ts text cost index.
Proof.
  intros Hi. rewrite <- candidates_take, <- (candidates_take cost).
  by rewrite take_app_le.
Qed.

Lemma candidates_length cost index :
  index <= length cost ->
  length (candidates ts text cost index) = Nat.min (max_len ts) index.
Proof.
  intros Hi. unfold candidates.
  rewrite length_imap, length_reverse, slice_length by done. len_lia.
Qed.

(** The candidates of [best_match(index)] are one per length [l] from 1 to
    [min(max_len, index)]: the cost of the first [index - l] characters plus
    the cost of the token of the [l] characters that follow. *)
Lemma candidates_elem cost index (x : F * nat) :
  index <= length cost ->
  x ∈ candidates ts text cost index <->
  exists l c, 1 <= l <= Nat.min (max_len ts) index /\
    cost !! (index - l) = Some c /\
    x = (fadd c (tok_cost ts (slice (index - l) index text)), l).
Proof.
  intros Hi. unfold candidates. rewrite elem_of_lookup_imap. split.
  - intros (m & c & -> & Hm). apply reverse_lookup_Some in Hm as [Hm Hlen].
    rewrite slice_length in Hm, Hlen by done.
    apply slice_lookup in Hm as [_ Hm].
    assert (1 <= m + 1 <= Nat.min (max_len ts) index) as Hm1 by (clear Hm; len_lia).
    exists (m + 1), c. split; [done |]. split.
    + rewrite <- Hm. f_equal. clear Hm. len_lia.
    + by replace (index - m - 1) with (index - (m + 1)) by lia.
  - intros (l & c & Hl & Hc & ->). exists (l - 1), c. split.
    + replace (index - (l - 1) - 1) with (index - l) by lia.
      by replace (l - 1 + 1) with l by lia.
    + apply reverse_lookup_Some. rewrite slice_length by done. split; [| len_lia].
      apply slice_lookup. split; [len_lia |]. rewrite <- Hc. f_equal. clear Hc. len_lia.
Qed.

Lemma best_match_app cost extra index :
  index <= length cost ->
  best_match ts text (cost ++ extra) index = best_match ts text cost index.
Proof. intros Hi. unfold best_match. by rewrite candidates_app. Qed.

Lemma best_match_outcome cost index :
  (exists m, best_match ts text cost index = Ok m) \/
  best_match ts text cost index = Raise ValueError.
Proof.
  unfold best_match, py_min. destruct (candidates ts text cost index); eauto.
Qed.

Lemma best_match_returns cost index :
  0 < max_len ts -> 1 <= index <= length cost ->
  exists m, best_match ts text cost index = Ok m.
Proof.
  intros HL Hi. unfold best_match, py_min.
  pose proof (candidates_length cost index) as Hlen.
  destruct (candidates ts text cost index); [simpl in Hlen; len_lia | eauto].
Qed.

Lemma best_match_no_words cost index :
  max_len ts = 0 -> index <= length cost ->
  best_match ts text cost index = Raise ValueError.
Proof.
  intros HL Hi. unfold best_match, py_min.
  pose proof (candidates_length cost index) as Hlen.
  destruct (candidates ts text cost index); [done | simpl in Hlen; len_lia].
Qed.

(** What [best_match] returns: a candidate, and the least one. *)
Lemma best_match_spec cost index (m : F * nat) :
  index <= length cost ->
  best_match ts text cost index = Ok m ->
  1 <= m.2 <= Nat.min (max_len ts) index /\
  (exists c, cost !! (index - m.2) = Some c /\
             m.1 = fadd c (tok_cost ts (slice (index - m.2) index text))) /\
  (forall l c, 1 <= l <= Nat.min (max_len ts) index ->
     cost !! (index - l) = Some c ->
     pair_le m (fadd c (tok_cost ts (slice (index - l) index text)), l)).
Proof.
  intros Hi Hm. apply py_min_spec in Hm as [Hin Hleast].
  apply candidates_elem in Hin as (l & c & Hl & Hc & ->); [| done]. simpl.
  split; [done |]. split; [by exists c |].
  intros l' c' Hl' Hc'. apply Hleast. apply candidates_elem; [done |].
  by exists l', c'.
Qed.

Lemma cost_inv_init : cost_inv ts text [f0].
Proof.
  split; [done |]. intros i c Hi Hc.
  apply lookup_lt_Some in Hc. simpl in Hc. len_lia.
Qed.

Lemma cost_inv_snoc cost (m : F * nat) :
  1 <= length cost -> cost_inv ts text cost ->
  best_match ts text cost (length cost) = Ok m ->
  cost_inv ts text (cost ++ [m.1]).
Proof.
  intros Hlen [Hz Hinv] Hm. split.
  - rewrite lookup_app_l by len_lia. done.
  - intros i c Hi Hc. destruct (decide (i < length cost)) as [Hlt | Hge].
    + rewrite lookup_app_l in Hc by done.
      destruct (Hinv i c Hi Hc) as [ml Hml]. exists ml.
      rewrite best_match_app by len_lia. done.
    + assert (i = length cost) as ->.
      { apply lookup_lt_Some in Hc. rewrite length_app in Hc. simpl in Hc. len_lia. }
      rewrite list_lookup_middle in Hc by done. injection Hc as <-.
      exists m.2. rewrite best_match_app by len_lia. by destruct m.
Qed.

Lemma forward_spec k : forall j cost cost',
  length cost = j -> 1 <= j -> cost_inv ts text cost ->
  forward ts text (seq j k) cost = Ok cost' ->
  cost_inv ts text cost' /\ length cost' = j + k.
Proof.
  induction k as [| k IH]; intros j cost cost' Hlen Hj Hinv Hfw; simpl in Hfw.
  - injection Hfw as <-. split; [done | len_lia].
  - destruct (best_match ts text cost j) as [m | |] eqn:Hm; try done.
    simpl in Hfw. apply IH in Hfw as [Hinv' Hlen'].
    + split; [done | len_lia].
    + rewrite length_app. simpl. len_lia.
    + len_lia.
    + apply cost_inv_snoc; [len_lia | done | by rewrite Hlen].
Qed.

Lemma forward_returns k : forall j cost,
  0 < max_len ts -> length cost = j -> 1 <= j ->
  exists cost', forward ts text (seq j k) cost = Ok cost'.
Proof.
  induction k as [| k IH]; intros j cost HL Hlen Hj; simpl; [eauto |].
  destruct (best_match_returns cost j) as [m ->]; [done | len_lia |]. simpl.
  apply IH; [done | | len_lia]. rewrite length_app. simpl. len_lia.
Qed.

Lemma forward_outcome idxs : forall cost,
  (exists cost', forward ts text idxs cost = Ok cost') \/
  forward ts text idxs cost = Raise ValueError.
Proof.
  induction idxs as [| i idxs IH]; intros cost; simpl; [eauto |].
  destruct (best_match_outcome cost i) as [[m ->] | ->]; simpl; [apply IH | by right].
Qed.

Lemma backtrack_step fuel cost i out :
  0 < i ->
  backtrack ts text (S fuel) cost i out =
  (m ← best_match ts text cost i;
   match cost !! i with
   | None => Raise IndexError
   | Some c =>
       if feqb m.1 c
       then backtrack ts text fuel cost (i - m.2) (out ++ [slice (i - m.2) i text])
       else Raise AssertionError
   end).
Proof. intros Hi. destruct i; [lia | reflexivity]. Qed.

(** The backtracking walks the cost array back from [i]: the tokens it
    collects spell the first [i] characters, each has between 1 and [max_len]
    characters, the recomputed cost passes the assertion at every step, and
    the costs of the tokens sum to [cost[i]]. *)
Lemma backtrack_spec cost :
  cost_inv ts text cost -> length cost = S (length text) ->
  forall fuel i out, i <= fuel -> i <= length text ->
  exists toks,
    backtrack ts text fuel cost i out = Ok (out ++ reverse toks) /\
    concat toks = take i text /\
    Forall (fun t => 1 <= length t <= max_len ts) toks /\
    cost !! i = Some (fsum (tok_cost ts <$> toks)).
Proof.
  intros [Hz Hinv] Hlen. induction fuel as [| fuel IH]; intros i out Hfuel Hi.
  - assert (i = 0) as -> by len_lia. exists []. simpl.
    rewrite app_nil_r. by rewrite take_0.
  - destruct (decide (i = 0)) as [-> | Hpos].
    { exists []. simpl. rewrite app_nil_r. done. }
    rewrite backtrack_step by lia.
    destruct (lookup_lt_is_Some_2 cost i) as [c Hc]; [lia |].
    destruct (Hinv i c) as [ml Hm]; [lia | done |].
    rewrite Hm, bind_Ok, Hc. cbn [fst snd]. rewrite feqb_refl.
    apply best_match_spec in Hm as (Hml & (c' & Hc' & Hcost) & _); [| len_lia].
    simpl in Hml, Hc', Hcost.
    destruct (IH (i - ml) (out ++ [slice (i - ml) i text])) as (toks & -> & Hcat & Hall & Hsum);
      [len_lia | len_lia |].
    exists (toks ++ [slice (i - ml) i text]). split; [| split; [| split]].
    + by rewrite reverse_app, reverse_singleton, <- app_assoc.
    + rewrite concat_app, Hcat. simpl. rewrite app_nil_r. apply take_slice. len_lia.
    + apply Forall_app. split; [done |]. apply Forall_singleton.
      rewrite slice_length by len_lia. len_lia.
    + f_equal. rewrite Hcost, fmap_app. unfold fsum.
      rewrite fold_left_app. simpl. f_equal.
      rewrite Hc' in Hsum. by injection Hsum.
Qed.

(** [split] returns, and what it returns, when the frequency list has a word
    that is not empty (or the text is empty). *)
Lemma split_spec :
  0 < max_len ts \/ text = [] ->
  exists cost toks,
    forward ts text (seq 1 (length text)) [f0] = Ok cost /\
    cost_inv ts text cost /\ length cost = S (length text) /\
    split ts text = Ok toks /\
    concat toks = text /\
    Forall (fun t => 1 <= length t <= max_len ts) toks /\
    cost !! length text = Some (fsum (tok_cost ts <$> toks)).
Proof.
  intros Hcase.
  assert (exists cost, forward ts text (seq 1 (length text)) [f0] = Ok cost) as [cost Hfw].
  { destruct Hcase as [HL | ->]; [by apply forward_returns | by exists [f0]]. }
  pose proof Hfw as Hfw'.
  apply forward_spec in Hfw' as [Hinv Hlen]; [| done | done | apply cost_inv_init].
  destruct (backtrack_spec cost Hinv Hlen (length text) (length text) [])
    as (toks & Hbt & Hcat & Hall & Hsum); [done.. |].
  exists cost, toks. unfold split. rewrite Hfw. simpl. rewrite Hbt. simpl.
  rewrite reverse_involutive. rewrite firstn_all in Hcat. done.
Qed.

Lemma split_returns :
  0 < max_len ts \/ text = [] -> exists toks, split ts text = Ok toks.
Proof. intros Hcase. destruct (split_spec Hcase) as (? & toks & ? & ? & ? & ? & ?). eauto. Qed.

(** Without a non-empty word in the frequency list, [min] is called on an
    empty list at the first character. *)
Lemma split_no_words :
  max_len ts = 0 -> text <> [] -> split ts text = Raise ValueError.
Proof.
  intros HL Htext. unfold split.
  assert (seq 1 (length text) = 1 :: seq 2 (length text - 1)) as ->.
  { destruct text; [done |]. simpl. by rewrite Nat.sub_0_r. }
  cbn [forward]. rewrite best_match_no_words; [done | done | simpl; lia].
Qed.

Lemma split_outcome :
  (exists toks, split ts text = Ok toks) \/
  (split ts text = Raise ValueError /\ max_len ts = 0 /\ text <> []).
Proof.
  destruct (decide (0 < max_len ts)) as [HL | HL].
  { left. apply split_returns. by left. }
  destruct (decide (text = [])) as [Ht | Ht].
  { left. apply split_returns. by right. }
  right. split; [apply split_no_words; [len_lia | done] | split; [len_lia | done]].
Qed.

Lemma split_ok_inv toks :
  split ts text = Ok toks -> 0 < max_len ts \/ text = [].
Proof.
  intros Hs. destruct (decide (0 < max_len ts)); [by left |].
  destruct (decide (text = [])); [by right |].
  rewrite split_no_words in Hs; [done | len_lia | done].
Qed.

(** [split("")] is the empty list; [split] of what is not a [str] raises
    TypeError. *)
Lemma split_empty : split ts [] = Ok [].
Proof. reflexivity. Qed.

Lemma TextSplitter_split_not_str (o : pyobj) :
  is_str o = false -> TextSplitter_split ts o = Raise TypeError.
Proof. by destruct o. Qed.

End SplitProofs.

(** ** The dictionary built by [__init__] *)

Section InitProofs.
Context {F : Type} `{Float F}.

Lemma dict_of_snoc (ps : list (str * F)) p :
  dict_of (ps ++ [p]) = <[p.1 := p.2]> (dict_of ps).
Proof. unfold dict_of. by rewrite fold_left_app. Qed.

Lemma dict_of_dom (ps : list (str * F)) k :
  is_Some (dict_of ps !! k) -> k ∈ ps.*1.
Proof.
  induction ps as [| p ps IH] using rev_ind.
  - unfold dict_of. simpl. rewrite lookup_empty. by intros [? ?].
  - rewrite dict_of_snoc, fmap_app, elem_of_app. simpl.
    destruct (decide (p.1 = k)) as [<- | Hne].
    + intros _. right. apply list_elem_of_singleton. done.
    + rewrite lookup_insert_ne by done. intros Hk. left. by apply IH.
Qed.

(** A word is stored with the cost of its last position in the list. *)
Lemma dict_of_lookup_last (ps : list (str * F)) j w c :
  ps !! j = Some (w, c) ->
  (forall j' c', j < j' -> ps !! j' <> Some (w, c')) ->
  dict_of ps !! w = Some c.
Proof.
  induction ps as [| p ps IH] using rev_ind; intros Hj Hlast; [done |].
  rewrite dict_of_snoc. destruct (decide (j = length ps)) as [-> | Hne].
  - rewrite list_lookup_middle in Hj by done. injection Hj as ->. simpl.
    apply lookup_insert_eq.
  - assert (j < length ps) as Hlt.
    { apply lookup_lt_Some in Hj. rewrite length_app in Hj. simpl in Hj. lia. }
    rewrite lookup_app_l in Hj by done.
    destruct p as [w' c']. simpl. destruct (decide (w' = w)) as [-> | Hw].
    + exfalso. apply (Hlast (length ps) c'); [done |].
      by rewrite list_lookup_middle.
    + rewrite lookup_insert_ne by done. apply IH; [done |].
      intros j' c'' Hj' Hps. apply (Hlast j' c''); [done |].
      rewrite lookup_app_l; [done |]. by apply lookup_lt_Some in Hps.
Qed.

Lemma cost_pairs_spec N ws : forall number ps,
  cost_pairs N number ws = Ok ps ->
  ps.*1 = ws /\
  forall i w, ws !! i = Some w ->
    exists c, rank_cost (number + i) N = Ok c /\ ps !! i = Some (w, c).
Proof.
  induction ws as [| w ws IH]; intros number ps Hps; simpl in Hps.
  - injection Hps as <-. split; [done |]. intros i w Hi. done.
  - destruct (rank_cost number N) as [c | |] eqn:Hc; try done. simpl in Hps.
    destruct (cost_pairs N (number + 1) ws) as [ps' | |] eqn:Hps'; try done.
    simpl in Hps. injection Hps as <-.
    apply IH in Hps' as [Hkeys Hall]. split; [simpl; by f_equal |].
    intros [| i] w' Hi; simpl in Hi.
    + injection Hi as <-. exists c. by rewrite Nat.add_0_r.
    + destruct (Hall i w' Hi) as (c' & Hc' & Hi'). exists c'. split; [| done].
      rewrite <- Hc'. f_equal. lia.
Qed.

Lemma strs_of_all_str ws :
  forallb is_str ws = true -> PyStr <$> strs_of ws = ws.
Proof.
  induction ws as [| o ws IH]; [done |]. simpl. rewrite andb_true_iff.
  intros [Ho Hws]. destruct o; try done. unfold strs_of. simpl.
  f_equal. by apply IH.
Qed.

Lemma strs_of_PyStr (ws : list str) : strs_of (PyStr <$> ws) = ws.
Proof. induction ws as [| w ws IH]; [done |]. unfold strs_of. simpl. by f_equal. Qed.

(** What a successful construction has built. *)
Lemma TextSplitter_init_Ok words (ts : TextSplitter F) :
  TextSplitter_init words = Ok ts ->
  exists ws ps,
    words = Some (PyStr <$> ws) /\ ws <> [] /\
    cost_pairs (length ws) 0 ws = Ok ps /\
    word_cost ts = dict_of ps /\
    max_len ts = max_list (length <$> ws).
Proof.
  unfold TextSplitter_init. destruct words as [[| o os] |]; try done.
  destruct (forallb is_str (o :: os)) eqn:Hall; simpl; [| done].
  destruct (cost_pairs _ 0 _) as [ps | |] eqn:Hps; try done. simpl.
  intros [= <-]. exists (strs_of (o :: os)), ps.
  pose proof (strs_of_all_str _ Hall) as Hstrs. split; [by rewrite Hstrs |]. split.
  { intros Hnil. rewrite Hnil in Hstrs. done. }
  split; [| done]. rewrite <- Hps. f_equal.
  transitivity (length (PyStr <$> strs_of (o :: os))); [by rewrite length_fmap | by rewrite Hstrs].
Qed.

Lemma TextSplitter_init_bounded words (ts : TextSplitter F) :
  TextSplitter_init words = Ok ts -> words_bounded ts.
Proof.
  intros (ws & ps & _ & _ & Hps & Hwc & Hml)%TextSplitter_init_Ok k Hk.
  rewrite Hwc in Hk. apply dict_of_dom in Hk.
  apply cost_pairs_spec in Hps as [Hkeys _]. rewrite Hkeys in Hk.
  rewrite Hml. apply max_list_elem_of_le. apply list_elem_of_fmap. by exists k.
Qed.

Lemma tok_cost_long (ts : TextSplitter F) t :
  words_bounded ts -> max_len ts < length t -> tok_cost ts t = finf.
Proof.
  intros Hb Hlen. unfold tok_cost.
  destruct (word_cost ts !! lower t) as [c |] eqn:Hc; [| done].
  assert (length (lower t) <= max_len ts) as Hk by (apply Hb; by exists c).
  unfold lower in Hk. rewrite length_map in Hk. lia.
Qed.

End InitProofs.

Section Optimal.
Context {F : Type} `{FloatOrder F}.
Variable ts : TextSplitter F.
Variable text : str.
Hypothesis Hbounded : words_bounded ts.

(** No way of cutting the first [i] characters costs less than [cost[i]]. *)
Lemma cost_lower_bound cost :
  cost_inv ts text cost -> length cost = S (length text) ->
  forall p i c,
    Forall (fun t => t <> []) p -> concat p = take i text -> i <= length text ->
    cost !! i = Some c -> fle c (total_cost ts p).
Proof.
  intros [Hz Hinv] Hlen p.
  induction p as [| t p IH] using rev_ind; intros i c Hne Hcat Hi Hc.
  - assert (i = 0) as ->.
    { apply (f_equal length) in Hcat. rewrite length_take in Hcat. simpl in Hcat. lia. }
    rewrite Hz in Hc. injection Hc as <-. apply fle_refl.
  - apply Forall_app in Hne as [Hne Ht]. rewrite Forall_singleton in Ht.
    rewrite concat_app in Hcat. simpl in Hcat. rewrite app_nil_r in Hcat.
    set (l := length t).
    assert (1 <= l) as Hl1 by (unfold l; destruct t; [done | simpl; lia]).
    assert (length (concat p) + l = i) as Hlen_i.
    { apply (f_equal length) in Hcat. rewrite length_app, length_take in Hcat. lia. }
    assert (concat p = take (i - l) text /\ t = slice (i - l) i text) as [Hp Ht'].
    { rewrite <- (take_slice (i - l) i text) in Hcat by lia.
      apply app_inj_1 in Hcat; [done |]. rewrite length_take. lia. }
    destruct (lookup_lt_is_Some_2 cost (i - l)) as [c' Hc']; [lia |].
    assert (fle c' (total_cost ts p)) as Hprev by (apply (IH (i - l)); [done | done | lia | done]).
    unfold total_cost, fsum. rewrite fmap_app, fold_left_app. simpl.
    fold (fsum (tok_cost ts <$> p)). fold (total_cost ts p).
    destruct (decide (l <= max_len ts)) as [Hshort | Hlong].
    + destruct (Hinv i c) as [ml Hm]; [lia | done |].
      apply best_match_spec in Hm as (_ & _ & Hleast); [| lia].
      destruct (Hleast l c') as [Hle _]; [len_lia | done |]. simpl in Hle.
      rewrite <- Ht' in Hle. eapply fle_trans; [apply Hle |]. by apply fadd_mono_l.
    + rewrite tok_cost_long by (fold l; done || lia).
      eapply fle_trans; [apply fle_inf | apply fadd_inf].
Qed.

End Optimal.

(** ** The fixed-point floats are ordered as [FloatOrder] asks *)

#[global] Instance fx_order : FloatOrder (ext Z).
Proof.
  split; unfold fle; simpl.
  - intros [a |] [b |]; simpl; rewrite ?Z.leb_le; auto. lia.
  - intros [a |] [b |] [c |]; simpl; rewrite ?Z.leb_le; auto; try done. lia.
  - intros [a |] [b |] [c |]; simpl; rewrite ?Z.leb_le; auto; try done. lia.
  - intros [a |]; done.
  - intros [a |]; done.
Qed.

Lemma demo_ts_init : TextSplitter_init (Some (PyStr <$> demo_words)) = Ok demo_ts.
Proof. vm_compute. reflexivity. Qed.

Example demo_split :
  split demo_ts (s "thecatofa") = Ok [s "the"; s "cat"; s "of"; s "a"].
Proof. vm_compute. reflexivity. Qed.

(** Once a character that starts no word is met, every later cost is
    infinite and the rest of the text comes out one character at a time. *)
Example demo_split_unknown :
  split demo_ts (s "Thexyand")
  = Ok [s "The"; s "x"; s "y"; s "a"; s "n"; s "d"].
Proof. vm_compute. reflexivity. Qed.

(** A frequency list of empty words only: the construction succeeds with
    [max_len = 0], and [split] of a text that is not empty raises ValueError
    ([min] of an empty list). *)
Example split_only_empty_words :
  exists ts : TextSplitter (ext Z),
    TextSplitter_init (Some [PyStr []; PyStr []]) = Ok ts /\
    max_len ts = 0 /\ split ts (s "a") = Raise ValueError.
Proof.
  eexists. split; [vm_compute; reflexivity |].
  split; vm_compute; reflexivity.
Qed.

(** ** The claims about [split] *)

Section SplitClaims.
Context {F : Type} `{FloatOrder F}.

(** C2. For every text, the tokens of the list [split(text)] returns,
    concatenated in order, are the text: no character is dropped, duplicated
    or moved. [split] returns such a list whenever the frequency list has a
    word that is not empty, and for the empty text. *)
Theorem split_concat (ts : TextSplitter F) (text : str) :
  (forall toks, split ts text = Ok toks -> concat toks = text) /\
  (0 < max_len ts \/ text = [] -> exists toks, split ts text = Ok toks).
Proof.
  split; [| apply split_returns].
  intros toks Hs. pose proof (split_ok_inv _ _ _ Hs) as Hcase.
  destruct (split_spec ts text Hcase) as (cost & toks' & _ & _ & _ & Hs' & Hcat & _).
  congruence.
Qed.

(** C8. Every token of the list [split(text)] returns is non-empty and is at
    most as long as the longest word of the frequency list the splitter was
    built from; [split] returns whenever that list has a non-empty word. *)
Theorem split_token_lengths (ws : list str) (ts : TextSplitter F) (text : str) :
  TextSplitter_init (Some (PyStr <$> ws)) = Ok ts ->
  max_len ts = max_list (length <$> ws) /\
  (forall toks, split ts text = Ok toks ->
     Forall (fun t => 1 <= length t <= max_list (length <$> ws)) toks) /\
  (0 < max_list (length <$> ws) -> exists toks, split ts text = Ok toks).
Proof.
  intros Hinit.
  assert (max_len ts = max_list (length <$> ws)) as Hml.
  { apply TextSplitter_init_Ok in Hinit as (ws' & ps & Hws & _ & _ & _ & Hml).
    injection Hws as Hws. apply (f_equal strs_of) in Hws.
    rewrite !strs_of_PyStr in Hws. by subst ws'. }
  split; [done |]. rewrite <- Hml. split.
  - intros toks Hs. pose proof (split_ok_inv _ _ _ Hs) as Hcase.
    destruct (split_spec ts text Hcase) as (cost & toks' & _ & _ & _ & Hs' & _ & Hall & _).
    congruence.
  - intros HL. apply split_returns. by left.
Qed.

(** C1. Over the cost model built from a frequency list, the token sequence
    [split(text)] returns cuts the text, and no way of cutting the text into
    non-empty substrings has a strictly lower summed cost. *)
Theorem split_optimal words (ts : TextSplitter F) (text : str) :
  TextSplitter_init words = Ok ts ->
  (forall toks, split ts text = Ok toks ->
     partition_of toks text /\
     forall p, partition_of p text ->
       fltb (total_cost ts p) (total_cost ts toks) = false) /\
  (0 < max_len ts \/ text = [] -> exists toks, split ts text = Ok toks).
Proof.
  intros Hinit. split; [| apply split_returns].
  intros toks Hs. pose proof (split_ok_inv _ _ _ Hs) as Hcase.
  destruct (split_spec ts text Hcase)
    as (cost & toks' & _ & Hinv & Hlen & Hs' & Hcat & Hall & Hsum).
  assert (toks' = toks) as -> by congruence. split.
  - split; [done |]. eapply Forall_impl; [apply Hall |].
    intros t Ht ->. simpl in Ht. lia.
  - intros p [Hp Hne]. apply fltb_false.
    apply (cost_lower_bound ts text (TextSplitter_init_bounded _ _ Hinit) cost Hinv Hlen
             p (length text)); [done | by rewrite firstn_all | done | done].
Qed.

(** C9. The assertion of the backtracking pass never fails: [split] never
    raises AssertionError, because at every position the cost [best_match]
    recomputes is the cost the forward pass recorded there. *)
Theorem split_assertion_holds (ts : TextSplitter F) (text : str) :
  raises AssertionError (split ts text) = false /\
  forall cost, forward ts text (seq 1 (length text)) [f0] = Ok cost ->
    forall i, 1 <= i <= length text ->
      exists m c, best_match ts text cost i = Ok m /\ cost !! i = Some c /\
                  m.1 = c /\ feqb m.1 c = true.
Proof.
  split.
  - destruct (split_outcome ts text) as [[toks ->] | [-> _]]; done.
  - intros cost Hfw i Hi.
    apply forward_spec in Hfw as [[_ Hinv] Hlen]; [| done | done | apply cost_inv_init].
    destruct (lookup_lt_is_Some_2 cost i) as [c Hc]; [lia |].
    destruct (Hinv i c) as [ml Hm]; [lia | done |].
    exists (c, ml), c. simpl. by rewrite feqb_refl.
Qed.

(** C3, as the code has it. [best_match] returns a candidate of least total
    cost, and when several candidates have that cost it returns the shortest
    of them: [costs] lists the candidates from the shortest to the longest,
    and [min] keeps the first least pair (cost, length). *)
Theorem best_match_prefers_shortest (ts : TextSplitter F) text cost index :
  (forall m, best_match ts text cost index = Ok m ->
     m ∈ candidates ts text cost index /\
     forall x, x ∈ candidates ts text cost index -> fle m.1 x.1) /\
  prefers_shortest ts text cost index.
Proof.
  split.
  - intros m Hm. apply py_min_spec in Hm as [Hin Hleast]. split; [done |].
    intros x Hx. by destruct (Hleast x Hx).
  - intros m Hm x Hx Heq. apply py_min_spec in Hm as [_ Hleast].
    destruct (Hleast x Hx) as [_ Hlen]. apply Hlen.
    by apply feqb_true in Heq as [? ?].
Qed.

End SplitClaims.

Lemma split_concat_witness :
  exists toks, split demo_ts (s "thecatofa") = Ok toks /\ concat toks = s "thecatofa".
Proof.
  destruct (split_concat demo_ts (s "thecatofa")) as [Hcat Hret].
  destruct Hret as [toks Htoks]; [left; vm_compute; lia |].
  exists toks. split; [done | by apply Hcat].
Defined.

Lemma split_token_lengths_witness :
  exists toks, split demo_ts (s "thecatofa") = Ok toks /\
    Forall (fun t => 1 <= length t <= 3) toks.
Proof.
  destruct (split_token_lengths demo_words demo_ts (s "thecatofa") demo_ts_init)
    as (Hml & Hall & Hret).
  destruct Hret as [toks Htoks]; [vm_compute; lia |].
  exists toks. split; [done | by apply Hall].
Defined.

Lemma split_optimal_witness :
  exists toks, split demo_ts (s "thecatofa") = Ok toks /\
    fltb (total_cost demo_ts [s "the"; s "cat"; s "of"; s "a"]) (total_cost demo_ts toks) = false /\
    fltb (total_cost demo_ts [s "theca"; s "t"; s "ofa"]) (total_cost demo_ts toks) = false.
Proof.
  destruct (split_optimal _ demo_ts (s "thecatofa") demo_ts_init) as [Hopt Hret].
  destruct Hret as [toks Htoks]; [left; vm_compute; lia |].
  destruct (Hopt toks Htoks) as [_ Hmin].
  exists toks. split; [exact Htoks |].
  split; apply Hmin; (split; [vm_compute; reflexivity | repeat constructor; discriminate]).
Defined.

Lemma split_assertion_holds_witness :
  raises AssertionError (split demo_ts (s "Thexyand")) = false.
Proof. exact (proj1 (split_assertion_holds demo_ts (s "Thexyand"))). Defined.

Lemma best_match_prefers_shortest_witness :
  prefers_shortest demo_ts (s "xy") [Fin 0%Z; Inf] 2.
Proof. exact (proj2 (best_match_prefers_shortest demo_ts (s "xy") [Fin 0%Z; Inf] 2)). Defined.

(** C3, as stated, fails. With the frequency list ["ab", "c"] and the text
    "xy", no substring is a word, so at position 2 the candidate of length 1
    and the candidate of length 2 both cost +inf; [best_match] returns length
    1, and [split] returns ["x", "y"], not ["xy"]. *)
Lemma best_match_prefers_longest_fails :
  exists ts cost,
    TextSplitter_init (F := ext Z) (Some [PyStr (s "ab"); PyStr (s "c")]) = Ok ts /\
    forward ts (s "xy") (seq 1 2) [f0] = Ok cost /\
    candidates ts (s "xy") cost 2 = [(Inf, 1); (Inf, 2)] /\
    best_match ts (s "xy") cost 2 = Ok (Inf, 1) /\
    ~ prefers_longest ts (s "xy") cost 2 /\
    split ts (s "xy") = Ok [s "x"; s "y"].
Proof.
  eexists _, _. split; [vm_compute; reflexivity |].
  split; [vm_compute; reflexivity |].
  split; [vm_compute; reflexivity |].
  split; [vm_compute; reflexivity |].
  split; [| vm_compute; reflexivity].
  intros Hlong.
  specialize (Hlong (Inf, 1) ltac:(vm_compute; reflexivity) (Inf, 2)).
  assert (2 <= 1) as Hle; [| lia].
  apply Hlong; [| reflexivity].
  apply list_elem_of_In. right. left. vm_compute. reflexivity.
Qed.

Lemma real_fle (a b : R) : fle (Fin a) (Fin b) <-> (a <= b)%R.
Proof. unfold fle. simpl. destruct (Rle_dec a b); split; try done; tauto. Qed.

Lemma real_flt (a b : R) : flt (Fin a) (Fin b) <-> (a < b)%R.
Proof.
  unfold flt, fltb. simpl. destruct (Rle_dec b a); simpl; split; try done; lra.
Qed.

#[global] Instance real_order : FloatOrder (ext R).
Proof.
  split.
  - intros [a |] [b |]; try (by left); try (by right).
    rewrite !real_fle. lra.
  - intros [a |] [b |] [c |]; try done. rewrite !real_fle. lra.
  - intros [a |] [b |] [c |]; try done. simpl. rewrite !real_fle. lra.
  - intros [a |]; done.
  - intros [a |]; done.
Qed.

#[global] Instance real_log : FloatLog (ext R).
Proof.
  split.
  - intros [a |]; simpl; [| done]. rewrite real_fle.
    destruct (Rlt_dec 0 a); split; try done; lra.
  - intros z. simpl. destruct (Rlt_dec 0 1) as [_ | Hn]; [| lra].
    intros [= <-]. rewrite ln_1, !real_fle. lra.
  - intros [x |] [y |] a b Hxy Ha Hb; simpl in Ha, Hb.
    + apply real_fle in Hxy.
      destruct (Rlt_dec 0 x) as [Hx |]; [| done]. destruct (Rlt_dec 0 y) as [Hy |]; [| done].
      injection Ha as <-. injection Hb as <-. apply real_fle.
      destruct (Req_dec x y) as [-> | Hne]; [lra |].
      left. apply ln_increasing; lra.
    + injection Hb as <-. by destruct a.
    + done.
    + injection Ha as <-. by injection Hb as <-.
  - intros n l Hn. simpl.
    assert (1 < INR n)%R as H1 by (apply lt_1_INR; lia).
    destruct (Rlt_dec 0 (INR n)) as [_ | Hneg]; [| lra].
    intros [= <-]. apply real_flt. rewrite <- ln_1. apply ln_increasing; lra.
  - intros n m Hnm. apply real_fle. by apply le_INR.
  - intros n Hn. apply real_flt. by apply lt_0_INR.
  - intros n [z |] Hz1 Hz2; [| done]. simpl.
    apply real_fle in Hz1, Hz2. apply real_fle.
    replace z with 0%R by lra. lra.
  - intros [x |] [y |] Hx Hy; try done. simpl.
    apply real_flt in Hx, Hy. apply real_flt. by apply Rmult_lt_0_compat.
  - intros [x |] [y |] [z |] Hz Hxy; try done. simpl.
    apply real_fle in Hz, Hxy. apply real_fle. by apply Rmult_le_compat_r.
Qed.

(** ** The claims about [__init__] *)

Section InitClaims.
Context {F : Type} `{FloatOrder F} `{!FloatLog F}.

Lemma flt_not_fle (x y : F) : flt x y -> ~ fle y x.
Proof. unfold flt, fltb, fle. by destruct (fleb y x). Qed.

Lemma py_log_pos (x : F) : flt f0 x -> exists y, py_log x = Ok y.
Proof.
  intros Hx. unfold py_log. destruct (flog x) as [y |] eqn:Hy; [eauto |].
  apply flog_dom in Hy. by apply flt_not_fle in Hx.
Qed.

(** With two words or more, every rank has a cost. *)
Lemma rank_cost_returns number N :
  2 <= N -> exists c, rank_cost number N = Ok c.
Proof.
  intros HN. unfold rank_cost.
  destruct (py_log_pos (fof_nat N)) as [l Hl]; [apply fof_nat_pos; lia |].
  rewrite Hl, bind_Ok. apply py_log_pos. apply fmul_pos.
  - apply fof_nat_pos. lia.
  - unfold py_log in Hl. destruct (flog (fof_nat N)) as [l' |] eqn:Hl'; [| done].
    injection Hl as ->. by eapply flog_of_nat_pos.
Qed.

(** With one word, [log(len(words))] is 0 and the logarithm of the product
    is not defined. *)
Lemma rank_cost_one number : rank_cost number 1 = Raise ValueError.
Proof.
  unfold rank_cost.
  destruct (py_log_pos (fof_nat 1)) as [z Hz]; [apply fof_nat_pos; lia |].
  rewrite Hz, bind_Ok. unfold py_log in *.
  destruct (flog (fof_nat 1)) as [z' |] eqn:Hz'; [| done]. injection Hz as ->.
  apply flog_one in Hz' as [Hz1 Hz2].
  pose proof (fmul_zero (number + 1) z Hz1 Hz2) as Hmul.
  apply flog_dom in Hmul. by rewrite Hmul.
Qed.

Lemma cost_pairs_returns N ws : forall number,
  2 <= N -> exists ps, cost_pairs N number ws = Ok ps.
Proof.
  induction ws as [| w ws IH]; intros number HN; simpl; [eauto |].
  destruct (rank_cost_returns number N HN) as [c ->]. rewrite bind_Ok.
  destruct (IH (number + 1) HN) as [ps ->]. rewrite bind_Ok. eauto.
Qed.

Lemma forallb_is_str_PyStr (ws : list str) : forallb is_str (PyStr <$> ws) = true.
Proof. induction ws as [| w ws IH]; [done |]. simpl. apply IH. Qed.

Lemma TextSplitter_init_cons (o : pyobj) os :
  TextSplitter_init (Some (o :: os)) =
  if negb (forallb is_str (o :: os)) then Raise TypeError
  else ps ← cost_pairs (length (o :: os)) 0 (strs_of (o :: os));
       Ok {| word_cost := dict_of ps;
             max_len := max_list (length <$> strs_of (o :: os)) |}.
Proof. reflexivity. Qed.

(** The construction succeeds on every list of two or more strings. *)
Lemma TextSplitter_init_returns (ws : list str) :
  2 <= length ws -> exists ts, TextSplitter_init (Some (PyStr <$> ws)) = Ok ts.
Proof.
  intros Hlen. destruct ws as [| w ws]; [simpl in Hlen; lia |].
  rewrite fmap_cons, TextSplitter_init_cons, <- fmap_cons.
  rewrite forallb_is_str_PyStr, strs_of_PyStr, length_fmap. simpl negb. cbv iota.
  destruct (cost_pairs_returns (length (w :: ws)) (w :: ws) 0 Hlen) as [ps ->].
  rewrite bind_Ok. eauto.
Qed.

Lemma TextSplitter_init_one (w : str) :
  TextSplitter_init (Some [PyStr w]) = Raise ValueError.
Proof.
  unfold TextSplitter_init. simpl. by rewrite rank_cost_one.
Qed.

(** C6, at the input where it fails. A list of one string passes both guards
    of the constructor, and the construction then raises ValueError:
    [log(len(words))] is [log(1) = 0.0], so [(0 + 1) * 0.0] is [0.0], where
    [math.log] is not defined. *)
Theorem TextSplitter_init_singleton (w : str) :
  TextSplitter_init (Some [PyStr w]) = Raise ValueError.
Proof. apply TextSplitter_init_one. Qed.

(** The outcome of the construction, case by case. *)
Lemma TextSplitter_init_outcome (words : option (list pyobj)) :
  match words with
  | None | Some [] => TextSplitter_init words = Raise ValueError
  | Some ws =>
      if forallb is_str ws
      then if length ws =? 1
           then TextSplitter_init words = Raise ValueError
           else exists ts, TextSplitter_init words = Ok ts
      else TextSplitter_init words = Raise TypeError
  end.
Proof.
  destruct words as [[| o os] |]; try done.
  destruct (forallb is_str (o :: os)) eqn:Hall.
  - apply strs_of_all_str in Hall. rewrite <- Hall, length_fmap.
    destruct (strs_of (o :: os)) as [| w [| w' ws]] eqn:Hs; [done | |].
    + apply TextSplitter_init_one.
    + apply TextSplitter_init_returns. simpl. lia.
  - unfold TextSplitter_init. by rewrite Hall.
Qed.

(** Rank costs do not decrease with the rank. *)
Lemma rank_cost_mono i j N (ci cj : F) :
  1 <= N -> i <= j -> rank_cost i N = Ok ci -> rank_cost j N = Ok cj -> fle ci cj.
Proof.
  intros HN Hij Hi Hj.
  destruct (decide (N = 1)) as [-> | HN1]; [by rewrite rank_cost_one in Hi |].
  revert Hi Hj. unfold rank_cost, py_log.
  destruct (flog (fof_nat N)) as [l |] eqn:Hl; [| done]. rewrite !bind_Ok.
  destruct (flog (fmul (fof_nat (i + 1)) l)) as [a |] eqn:Ha; [| done].
  destruct (flog (fmul (fof_nat (j + 1)) l)) as [b |] eqn:Hb; [| done].
  intros [= <-] [= <-]. eapply flog_mono; [| apply Ha | apply Hb].
  apply fmul_mono_l; [| apply fof_nat_mono; lia].
  apply fltb_true. eapply flog_of_nat_pos; [| apply Hl]. lia.
Qed.

(** A word is stored with the rank cost of its last position. *)
Lemma word_cost_last (ws : list str) (ts : TextSplitter F) j w :
  TextSplitter_init (Some (PyStr <$> ws)) = Ok ts ->
  ws !! j = Some w -> (forall j', j < j' -> ws !! j' <> Some w) ->
  exists c, rank_cost j (length ws) = Ok c /\ word_cost ts !! w = Some c.
Proof.
  intros Hinit Hj Hlast.
  apply TextSplitter_init_Ok in Hinit as (ws' & ps & Hws & _ & Hps & Hwc & _).
  injection Hws as Hws. apply (f_equal strs_of) in Hws.
  rewrite !strs_of_PyStr in Hws. subst ws'.
  apply cost_pairs_spec in Hps as [Hkeys Hall].
  destruct (Hall j w Hj) as (c & Hc & Hpj). exists c. split; [done |].
  rewrite Hwc. apply (dict_of_lookup_last ps j); [done |].
  intros j' c' Hlt Hpj'. apply (Hlast j' Hlt).
  rewrite <- Hkeys, list_lookup_fmap, Hpj'. done.
Qed.

(** C7, as the code has it. After a construction that succeeds, a word is
    stored with [log((j + 1) * log(N))] for the last position [j] at which it
    stands in the list; when no word is repeated, that is the cost of the
    word's own position, and the stored costs do not decrease with the rank. *)
Theorem word_cost_by_rank (ws : list str) (ts : TextSplitter F) :
  TextSplitter_init (Some (PyStr <$> ws)) = Ok ts ->
  (forall j w, ws !! j = Some w -> (forall j', j < j' -> ws !! j' <> Some w) ->
     exists c, rank_cost j (length ws) = Ok c /\ word_cost ts !! w = Some c) /\
  (NoDup ws -> stored_at_rank ws ts /\ stored_monotone ws ts).
Proof.
  intros Hinit. split; [intros j w; by apply word_cost_last |].
  intros Hnd.
  assert (stored_at_rank ws ts) as Hrank.
  { intros i w Hi. apply (word_cost_last ws ts i w Hinit Hi).
    intros j' Hlt Hj'. pose proof (NoDup_lookup _ _ _ _ Hnd Hi Hj'). lia. }
  split; [done |].
  intros i j wi wj ci cj Hij Hi Hj Hci Hcj.
  destruct (Hrank i wi Hi) as (ci' & Hri & Hci').
  destruct (Hrank j wj Hj) as (cj' & Hrj & Hcj').
  assert (ci' = ci) as -> by congruence. assert (cj' = cj) as -> by congruence.
  apply (rank_cost_mono i j (length ws)); [| done..].
  apply lookup_lt_Some in Hi. lia.
Qed.

End InitClaims.

Lemma TextSplitter_init_singleton_witness :
  TextSplitter_init (F := ext R) (Some [PyStr (s "teststring")]) = Raise ValueError.
Proof. exact (TextSplitter_init_singleton (s "teststring")). Defined.

(** The same on the fixed-point floats, by running the code. *)
Example TextSplitter_init_singleton_fx :
  TextSplitter_init (F := ext Z) (Some [PyStr (s "teststring")]) = Raise ValueError.
Proof. vm_compute. reflexivity. Qed.

Lemma demo_words_NoDup : NoDup demo_words.
Proof. apply (bool_decide_unpack _). vm_compute. reflexivity. Qed.

Lemma word_cost_by_rank_witness :
  exists ts : TextSplitter (ext R),
    TextSplitter_init (Some (PyStr <$> demo_words)) = Ok ts /\
    stored_at_rank demo_words ts /\ stored_monotone demo_words ts.
Proof.
  destruct (TextSplitter_init_returns (F := ext R) demo_words) as [ts Hts];
    [vm_compute; lia |].
  exists ts. split; [exact Hts |].
  exact (proj2 (word_cost_by_rank demo_words ts Hts) demo_words_NoDup).
Defined.

(** The rank costs over the reals. *)
Lemma real_rank_cost number N :
  2 <= N ->
  rank_cost (F := ext R) number N = Ok (Fin (ln (INR (number + 1) * ln (INR N)))).
Proof.
  intros HN. unfold rank_cost, py_log. simpl.
  assert (1 < INR N)%R as H1 by (apply lt_1_INR; lia).
  assert (0 < ln (INR N))%R as Hln by (rewrite <- ln_1; apply ln_increasing; lra).
  destruct (Rlt_dec 0 (INR N)) as [_ | Hn]; [| lra]. rewrite bind_Ok. simpl.
  assert (0 < INR (number + 1))%R as Hk by (apply lt_0_INR; lia).
  destruct (Rlt_dec 0 (INR (number + 1) * ln (INR N))) as [_ | Hn]; [done |].
  exfalso. apply Hn. by apply Rmult_lt_0_compat.
Qed.

(** C7, as stated, fails on a list that repeats a word. In ["a", "b", "a"]
    the word "a" is stored with the cost of position 2, [log(3 * log(3))],
    not with the cost [log(1 * log(3))] of position 0, and that is more than
    the cost stored for "b" at position 1. *)
Lemma stored_at_rank_fails :
  exists ts : TextSplitter (ext R),
    TextSplitter_init (Some (PyStr <$> [s "a"; s "b"; s "a"])) = Ok ts /\
    word_cost ts !! s "a" = Some (Fin (ln (3 * ln 3))) /\
    word_cost ts !! s "b" = Some (Fin (ln (2 * ln 3))) /\
    ~ stored_at_rank [s "a"; s "b"; s "a"] ts /\
    ~ stored_monotone [s "a"; s "b"; s "a"] ts.
Proof.
  set (ws := [s "a"; s "b"; s "a"]).
  destruct (TextSplitter_init_returns (F := ext R) ws) as [ts Hts]; [vm_compute; lia |].
  exists ts. split; [exact Hts |].
  assert (INR 1 = 1%R) as HI1 by reflexivity.
  assert (INR 2 = 2%R) as HI2 by (cbn [INR]; lra).
  assert (INR 3 = 3%R) as HI3 by (cbn [INR]; lra).
  assert (0 < ln 3)%R as Hln by (rewrite <- ln_1; apply ln_increasing; lra).
  assert (word_cost ts !! s "a" = Some (Fin (ln (3 * ln 3)))) as Ha.
  { destruct (word_cost_last ws ts 2 (s "a") Hts) as (c & Hc & Hw); [reflexivity | |].
    - intros [| [| [| j']]] Hlt; try lia. discriminate.
    - rewrite real_rank_cost in Hc by (vm_compute; lia).
      change (length ws) with 3 in Hc. change (2 + 1) with 3 in Hc.
      rewrite HI3 in Hc. injection Hc as <-. exact Hw. }
  assert (word_cost ts !! s "b" = Some (Fin (ln (2 * ln 3)))) as Hb.
  { destruct (word_cost_last ws ts 1 (s "b") Hts) as (c & Hc & Hw); [reflexivity | |].
    - intros [| [| [| j']]] Hlt; try lia; discriminate.
    - rewrite real_rank_cost in Hc by (vm_compute; lia).
      change (length ws) with 3 in Hc. change (1 + 1) with 2 in Hc.
      rewrite HI2, HI3 in Hc. injection Hc as <-. exact Hw. }
  split; [exact Ha |]. split; [exact Hb |]. split.
  - intros Hrank. destruct (Hrank 0 (s "a")) as (c & Hc & Hw); [reflexivity |].
    rewrite real_rank_cost in Hc by (vm_compute; lia).
    change (length ws) with 3 in Hc. change (0 + 1) with 1 in Hc.
    rewrite HI1, HI3 in Hc. injection Hc as <-.
    rewrite Ha in Hw. injection Hw as Hw.
    apply ln_inv in Hw; nra.
  - intros Hmono.
    specialize (Hmono 0 1 (s "a") (s "b") _ _ ltac:(lia) eq_refl eq_refl Ha Hb).
    apply real_fle in Hmono.
    assert (ln (2 * ln 3) < ln (3 * ln 3))%R by (apply ln_increasing; nra).
    lra.
Qed.

(** The same list on the fixed-point floats: "a" is stored with
    78160 / 65536 = 1.1926 and "b" with 0.7872, while the rank cost of
    position 0 is 0.0940. *)
Example stored_at_rank_fails_fx :
  exists ts : TextSplitter (ext Z),
    TextSplitter_init (Some (PyStr <$> [s "a"; s "b"; s "a"])) = Ok ts /\
    word_cost ts !! s "a" = Some (Fin 78160%Z) /\
    word_cost ts !! s "b" = Some (Fin 51588%Z) /\
    rank_cost 0 3 = Ok (Fin 6162%Z).
Proof.
  eexists. split; [vm_compute; reflexivity |].
  split; [vm_compute; reflexivity |].
  split; vm_compute; reflexivity.
Qed.

Example demo_find : index_find demo_words (s "the") 1 = [(0, s "the"); (1, s "she")].
Proof. vm_compute. reflexivity. Qed.

Example demo_find_transposed : index_find demo_words (s "teh") 1 = [(1, s "the")].
Proof. vm_compute. reflexivity. Qed.

Example demo_correct :
  _get_correct_words demo_an demo_clear (s "thof") None
  = Ok {[ s "theof"; s "thof" ]}.
Proof. vm_compute. reflexivity. Qed.

Example demo_repeated :
  cleaned_word demo_an demo_clear (s "abab") None = Ok (s "ab").
Proof. vm_compute. reflexivity. Qed.

(** ** The claims about [_get_correct_words] *)

Lemma size_list_to_set_le (l : list str) : size (list_to_set l : gset str) <= length l.
Proof.
  induction l as [| x l IH].
  - rewrite list_to_set_nil, size_empty. done.
  - rewrite list_to_set_cons, size_union_alt, size_singleton. cbn [length].
    pose proof (subseteq_size (list_to_set l ∖ {[x]}) (list_to_set l : gset str)) as Hle.
    assert (size (list_to_set l ∖ {[x]} : gset str) <= size (list_to_set l : gset str))
      by (apply Hle; intros y [Hy _]%elem_of_difference; exact Hy).
    lia.
Qed.

Section CorrectClaims.
Context {F : Type} `{FloatOrder F}.
Variable a : WordAnalyzer F.
Variable clear : str -> result str.

Lemma get_correct_words_eq w cw word parts :
  cleaned_word a clear w cw = Ok word ->
  split (splitter a) word = Ok parts ->
  _get_correct_words a clear w cw =
  if length parts <? 2
  then few_parts_loop a parts [] ≫= fun _ =>
       Ok (if truthy word then {[word]} else ∅)
  else parts_loop a parts (seq 0 (length parts)) [] ≫= fun evaluated_words =>
       let arr := take (number_of_corrected_words a) (py_sorted evaluated_words) in
       Ok (list_to_set ((if truthy word then arr ++ [(f0, word)] else arr).*2)).
Proof.
  intros Hc Hs. unfold _get_correct_words. rewrite Hc, bind_Ok, Hs, bind_Ok.
  destruct (length parts <? 2); [| reflexivity].
  destruct (few_parts_loop a parts []) as [arr | |]; [| done..].
  rewrite !bind_Ok. unfold py_sorted. cbn [fold_left]. rewrite take_nil.
  destruct (truthy word); simpl; [| done]. by rewrite (right_id_L ∅ (∪)).
Qed.

Lemma get_total_cost_returns text :
  0 < max_len (splitter a) -> exists c, _get_total_cost a text = Ok c.
Proof.
  intros HL. unfold _get_total_cost.
  destruct (split_returns (splitter a) text) as [parts ->]; [by left |].
  rewrite bind_Ok. eauto.
Qed.

Lemma cost_entries_returns found :
  0 < max_len (splitter a) -> exists arr, cost_entries a found = Ok arr.
Proof.
  intros HL. induction found as [| it found [arr IH]]; cbn [cost_entries]; [eauto |].
  destruct (get_total_cost_returns it.2 HL) as [c ->]. rewrite bind_Ok, IH, bind_Ok. eauto.
Qed.

Lemma get_similar_words_returns word :
  0 < max_len (splitter a) -> exists r, _get_similar_words a word = Ok r.
Proof.
  intros HL. unfold _get_similar_words.
  destruct (cost_entries_returns (tree_find a word (distance a)) HL) as [arr ->].
  rewrite bind_Ok. destruct arr; eauto.
Qed.

Lemma replace_correcting_parts_returns parts similar i j :
  0 < max_len (splitter a) ->
  exists r, replace_correcting_parts a parts similar i j = Ok r.
Proof.
  intros HL. induction similar as [| w similar [r IH]]; cbn [replace_correcting_parts]; [eauto |].
  destruct (get_total_cost_returns (join (take i parts ++ [w] ++ drop (j + 1) parts)) HL)
    as [c ->].
  rewrite bind_Ok, IH, bind_Ok. eauto.
Qed.

Lemma few_parts_loop_returns parts : forall arr,
  0 < max_len (splitter a) -> exists r, few_parts_loop a parts arr = Ok r.
Proof.
  induction parts as [| part parts IH]; intros arr HL; cbn [few_parts_loop]; [eauto |].
  destruct (get_similar_words_returns part HL) as [r ->]. rewrite bind_Ok.
  destruct r as [[| w ws] |]; by apply IH.
Qed.

Lemma splice_loop_returns parts i js : forall ev,
  0 < max_len (splitter a) -> exists r, splice_loop a parts i js ev = Ok r.
Proof.
  induction js as [| j js IH]; intros ev HL; cbn [splice_loop]; [eauto |].
  destruct (get_similar_words_returns (join (slice i j parts)) HL) as [r ->].
  rewrite bind_Ok. destruct r as [[| w ws] |]; try by apply IH.
  destruct (replace_correcting_parts_returns parts (w :: ws) i (j - 1) HL) as [full ->].
  rewrite bind_Ok. by apply IH.
Qed.

Lemma parts_loop_returns parts idxs : forall ev,
  0 < max_len (splitter a) -> exists r, parts_loop a parts idxs ev = Ok r.
Proof.
  induction idxs as [| i idxs IH]; intros ev HL; cbn [parts_loop]; [eauto |].
  match goal with |- context [splice_loop a parts i ?js ev] =>
    destruct (splice_loop_returns parts i js ev HL) as [r ->] end.
  rewrite bind_Ok. by apply IH.
Qed.

(** The correction returns whenever the cleaning does and the frequency list
    has a word that is not empty. *)
Lemma get_correct_words_returns w cw word :
  0 < max_len (splitter a) ->
  cleaned_word a clear w cw = Ok word ->
  exists r, _get_correct_words a clear w cw = Ok r.
Proof.
  intros HL Hc.
  destruct (split_returns (splitter a) word) as [parts Hs]; [by left |].
  rewrite (get_correct_words_eq w cw word parts Hc Hs).
  destruct (length parts <? 2).
  - destruct (few_parts_loop_returns parts [] HL) as [arr ->]. rewrite bind_Ok. eauto.
  - destruct (parts_loop_returns parts (seq 0 (length parts)) [] HL) as [ev ->].
    rewrite bind_Ok. eauto.
Qed.

(** C4, as the code has it. When the word splits into fewer than 2 parts,
    the index is queried for each part, and what the queries return is
    dropped: the list is overwritten with a slice of [evaluated_words], which
    is still empty, so the result is the set of the cleaned word alone (or
    the empty set when that word is empty). *)
Theorem few_parts_result w cw word parts arr :
  cleaned_word a clear w cw = Ok word ->
  split (splitter a) word = Ok parts ->
  length parts < 2 ->
  few_parts_loop a parts [] = Ok arr ->
  _get_correct_words a clear w cw = Ok (if truthy word then {[word]} else ∅).
Proof.
  intros Hc Hs Hlen Harr. rewrite (get_correct_words_eq w cw word parts Hc Hs).
  apply Nat.ltb_lt in Hlen. by rewrite Hlen, Harr.
Qed.

(** C5, as the code has it. The set [_get_correct_words] returns contains
    the cleaned word whenever that word is not empty; when it is empty the
    set is empty. The correction returns whenever the cleaning does and the
    frequency list has a non-empty word. *)
Theorem get_correct_words_fallback w cw word :
  cleaned_word a clear w cw = Ok word ->
  (forall r, _get_correct_words a clear w cw = Ok r ->
     (word <> [] -> word ∈ r) /\ (word = [] -> r = ∅)) /\
  (0 < max_len (splitter a) -> exists r, _get_correct_words a clear w cw = Ok r).
Proof.
  intros Hc. split; [| intros HL; by eapply get_correct_words_returns].
  intros r Hr.
  destruct (split_outcome (splitter a) word) as [[parts Hs] | [Hs _]]; cycle 1.
  { unfold _get_correct_words in Hr. by rewrite Hc, bind_Ok, Hs in Hr. }
  rewrite (get_correct_words_eq w cw word parts Hc Hs) in Hr. split.
  - intros Hne. assert (truthy word = true) as Ht.
    { unfold truthy. by rewrite bool_decide_eq_false_2. }
    rewrite Ht in Hr. destruct (length parts <? 2).
    + destruct (few_parts_loop a parts []); [| done..].
      rewrite bind_Ok in Hr. injection Hr as <-. set_solver.
    + destruct (parts_loop a parts (seq 0 (length parts)) []); [| done..].
      rewrite bind_Ok in Hr. injection Hr as <-.
      rewrite elem_of_list_to_set, fmap_app, elem_of_app. right. simpl. set_solver.
  - intros ->. assert (parts = []) as ->.
    { assert (split (splitter a) [] = Ok []) as Hnil by reflexivity. congruence. }
    simpl in Hr. by injection Hr as <-.
Qed.

(** C10. The set [_get_correct_words] returns has at most
    [number_of_corrected_words + 1] elements; the correction returns whenever
    the cleaning does and the frequency list has a non-empty word. *)
Theorem get_correct_words_size w cw :
  (forall r, _get_correct_words a clear w cw = Ok r ->
     size r <= number_of_corrected_words a + 1) /\
  (0 < max_len (splitter a) ->
   forall word, cleaned_word a clear w cw = Ok word ->
     exists r, _get_correct_words a clear w cw = Ok r).
Proof.
  split; [| intros HL word Hc; by eapply get_correct_words_returns].
  intros r Hr.
  destruct (cleaned_word a clear w cw) as [word | |] eqn:Hc;
    [| unfold _get_correct_words in Hr; by rewrite Hc in Hr..].
  destruct (split_outcome (splitter a) word) as [[parts Hs] | [Hs _]]; cycle 1.
  { unfold _get_correct_words in Hr. by rewrite Hc, bind_Ok, Hs in Hr. }
  rewrite (get_correct_words_eq w cw word parts Hc Hs) in Hr.
  destruct (length parts <? 2).
  - destruct (few_parts_loop a parts []); [| done..].
    rewrite bind_Ok in Hr. injection Hr as <-.
    destruct (truthy word); [rewrite size_singleton | rewrite size_empty]; lia.
  - destruct (parts_loop a parts (seq 0 (length parts)) []) as [ev | |]; [| done..].
    rewrite bind_Ok in Hr. injection Hr as <-. cbv zeta.
    etransitivity; [apply size_list_to_set_le |]. rewrite length_fmap.
    destruct (truthy word); rewrite ?length_app, length_take; simpl; lia.
Qed.

End CorrectClaims.

(** The query for "the" returns "the" and "she"; the correction returns
    "the" alone. *)
Lemma few_parts_result_witness :
  few_parts_loop demo_an [s "the"] [] = Ok [s "the"; s "she"] /\
  _get_correct_words demo_an demo_clear (s "the") (Some (s "the")) = Ok {[ s "the" ]}.
Proof.
  split; [vm_compute; reflexivity |].
  apply (few_parts_result demo_an demo_clear (s "the") (Some (s "the")) (s "the")
           [s "the"] [s "the"; s "she"]).
  - vm_compute. reflexivity.
  - vm_compute. reflexivity.
  - simpl. lia.
  - vm_compute. reflexivity.
Defined.

Lemma get_correct_words_fallback_witness :
  exists r, _get_correct_words demo_an demo_clear (s "thof") None = Ok r /\ s "thof" ∈ r.
Proof.
  destruct (get_correct_words_fallback demo_an demo_clear (s "thof") None (s "thof"))
    as [Hin Hret]; [vm_compute; reflexivity |].
  destruct Hret as [r Hr]; [vm_compute; lia |].
  exists r. split; [exact Hr |]. by apply (Hin r Hr).
Defined.

Lemma get_correct_words_size_witness :
  exists r, _get_correct_words demo_an demo_clear (s "thof") None = Ok r /\ size r <= 3.
Proof.
  destruct (get_correct_words_size demo_an demo_clear (s "thof") None) as [Hsize Hret].
  destruct (Hret ltac:(vm_compute; lia) (s "thof")) as [r Hr]; [vm_compute; reflexivity |].
  exists r. split; [exact Hr |]. exact (Hsize r Hr).
Defined.

(** C5, as stated, fails on the empty word: it is cleaned to the empty
    word, which [if word:] keeps out of the result, and the set returned is
    empty. The routine of analyzer/word_analyzer.py appends no
    fallback at all: it returns the empty list for "" and for "xyz". *)
Lemma get_correct_words_fallback_fails :
  cleaned_word demo_an demo_clear [] None = Ok [] /\
  _get_correct_words demo_an demo_clear [] None = Ok ∅ /\
  ~ ([] ∈ (∅ : gset str)) /\
  Top.get_correct_words demo_top_an demo_clear [] 2 4 = Ok [] /\
  Top.get_correct_words demo_top_an demo_clear (s "xyz") 2 4 = Ok [].
Proof.
  split; [vm_compute; reflexivity |].
  split; [vm_compute; reflexivity |].
  split; [set_solver |].
  split; vm_compute; reflexivity.
Qed.

(** * Further properties *)

(** ** [split]: when it raises, texts without a word, upper case, prefixes *)

Section SplitMore.
Context {F : Type} `{FloatOrder F}.
Variable ts : TextSplitter F.

(** [split] returns a list exactly when the frequency list has a word that
    is not empty or the text is empty; otherwise it raises ValueError, and it
    raises nothing else. *)
Theorem split_raises_only_without_words (text : str) :
  match split ts text with
  | Ok _ => 0 < max_len ts \/ text = []
  | Raise e => e = ValueError /\ max_len ts = 0 /\ text <> []
  | OutOfFuel => False
  end.
Proof.
  destruct (split_outcome ts text) as [[toks Hs] | (Hs & HL & Ht)]; rewrite Hs.
  - by eapply split_ok_inv.
  - done.
Qed.

(** When no substring of the text is a word, the cheapest candidate at every
    position is the one of length 1. *)
Lemma best_match_unknown text cost i (m : F * nat) :
  (forall a b, a < b <= length text -> word_cost ts !! lower (slice a b text) = None) ->
  1 <= i <= length text -> i <= length cost ->
  best_match ts text cost i = Ok m -> m.2 = 1.
Proof.
  intros Hunk Hi Hlen Hm.
  assert (forall a b, a < b <= length text -> tok_cost ts (slice a b text) = finf) as Htok.
  { intros a b Hab. unfold tok_cost. by rewrite Hunk. }
  assert (0 < max_len ts) as HL.
  { apply best_match_spec in Hm as (Hml & _); [| done]. len_lia. }
  apply best_match_spec in Hm as (Hml & (c' & Hc' & Hcost) & Hleast); [| done].
  destruct (lookup_lt_is_Some_2 cost (i - 1)) as [c0 Hc0]; [lia |].
  destruct (Hleast 1 c0) as [_ Hshort]; [len_lia | done |].
  simpl in Hshort. rewrite Hcost, !Htok in Hshort by len_lia.
  assert (m.2 <= 1); [| lia].
  apply Hshort. eapply fle_trans; [apply fle_inf | apply fadd_inf].
Qed.

Lemma backtrack_unknown text cost :
  (forall a b, a < b <= length text -> word_cost ts !! lower (slice a b text) = None) ->
  cost_inv ts text cost -> length cost = S (length text) ->
  forall fuel i out, i <= fuel -> i <= length text ->
    backtrack ts text fuel cost i out
    = Ok (out ++ reverse ((fun ch => [ch]) <$> take i text)).
Proof.
  intros Hunk [Hz Hinv] Hlen. induction fuel as [| fuel IH]; intros i out Hfuel Hi.
  - assert (i = 0) as -> by lia. simpl. by rewrite app_nil_r.
  - destruct (decide (i = 0)) as [-> | Hpos].
    { simpl. by rewrite app_nil_r. }
    rewrite backtrack_step by lia.
    destruct (lookup_lt_is_Some_2 cost i) as [c Hc]; [lia |].
    destruct (Hinv i c) as [ml Hm]; [lia | done |].
    pose proof (best_match_unknown text cost i (c, ml) Hunk) as Hone.
    simpl in Hone. rewrite Hone in Hm by (done || lia). clear Hone.
    rewrite Hm, bind_Ok, Hc. cbn [fst snd]. rewrite feqb_refl.
    rewrite IH by lia.
    destruct (lookup_lt_is_Some_2 text (i - 1)) as [ch Hch]; [lia |].
    replace (slice (i - 1) i text) with [ch].
    2:{ unfold slice. replace (i - (i - 1)) with 1 by lia.
        rewrite (drop_S _ ch _ Hch). done. }
    replace (take i text) with (take (i - 1) text ++ [ch]).
    2:{ replace i with (S (i - 1)) at 2 by lia. by rewrite (take_S_r _ _ ch). }
    by rewrite fmap_app, reverse_app, <- app_assoc.
Qed.

(** A text none of whose substrings is a word of the frequency list (compared
    in lower case) is split into its characters, one token each. *)
Theorem split_unknown_text (text : str) :
  0 < max_len ts ->
  (forall a b, a < b <= length text -> word_cost ts !! lower (slice a b text) = None) ->
  split ts text = Ok ((fun ch => [ch]) <$> text).
Proof.
  intros HL Hunk.
  destruct (split_spec ts text) as (cost & toks & Hfw & Hinv & Hlen & _); [by left |].
  unfold split. rewrite Hfw, bind_Ok.
  rewrite (backtrack_unknown text cost Hunk Hinv Hlen) by done.
  rewrite bind_Ok. simpl. by rewrite reverse_involutive, firstn_all.
Qed.

(** The cost array is determined by its invariant. *)
Lemma cost_inv_unique text (c1 c2 : list F) :
  cost_inv ts text c1 -> cost_inv ts text c2 ->
  forall k, k <= length c1 -> k <= length c2 -> take k c1 = take k c2.
Proof.
  intros [Hz1 Hinv1] [Hz2 Hinv2]. induction k as [| k IH]; intros Hk1 Hk2; [done |].
  destruct (lookup_lt_is_Some_2 c1 k) as [x1 Hx1]; [lia |].
  destruct (lookup_lt_is_Some_2 c2 k) as [x2 Hx2]; [lia |].
  rewrite (take_S_r _ _ _ Hx1), (take_S_r _ _ _ Hx2), IH by lia.
  f_equal. f_equal. destruct (decide (k = 0)) as [-> | Hpos]; [congruence |].
  destruct (Hinv1 k x1) as [ml1 Hm1]; [lia | done |].
  destruct (Hinv2 k x2) as [ml2 Hm2]; [lia | done |].
  unfold best_match in Hm1, Hm2.
  rewrite <- candidates_take in Hm1. rewrite <- candidates_take in Hm2.
  rewrite IH in Hm1 by lia. congruence.
Qed.

Lemma slice_take_le {A} (a b i : nat) (l : list A) :
  b <= i -> slice a b (take i l) = slice a b l.
Proof.
  intros Hb. apply list_eq. intros k. apply option_eq. intros x.
  rewrite !slice_lookup, lookup_take_Some. split; [tauto |].
  intros [Hk Hx]. repeat split; [done.. | lia].
Qed.

Lemma candidates_prefix text cost i index :
  index <= i -> candidates ts (take i text) cost index = candidates ts text cost index.
Proof.
  intros Hle. unfold candidates. apply imap_ext. intros k c _. simpl.
  by rewrite slice_take_le.
Qed.

Lemma cost_inv_prefix text cost i :
  i <= length text -> length cost = S (length text) ->
  cost_inv ts text cost -> cost_inv ts (take i text) (take (S i) cost).
Proof.
  intros Hi Hlen [Hz Hinv]. split.
  - by rewrite lookup_take_lt by lia.
  - intros k c Hk Hc. apply lookup_take_Some in Hc as [Hc Hki].
    destruct (Hinv k c Hk Hc) as [ml Hm]. exists ml.
    unfold best_match in *. rewrite candidates_prefix by lia.
    rewrite <- candidates_take, take_take, Nat.min_l, candidates_take by lia. done.
Qed.

(** The cost array holds the cost of every prefix: entry [i] is the summed
    cost of the tokens [split] returns for the first [i] characters. *)
Theorem cost_array_prefix (text : str) (cost : list F) (i : nat) :
  forward ts text (seq 1 (length text)) [f0] = Ok cost ->
  i <= length text ->
  exists toks, split ts (take i text) = Ok toks /\
               cost !! i = Some (total_cost ts toks).
Proof.
  intros Hfw Hi.
  assert (0 < max_len ts \/ text = []) as Hcase.
  { destruct (decide (0 < max_len ts)); [by left |].
    destruct (decide (text = [])); [by right |]. exfalso.
    assert (seq 1 (length text) = 1 :: seq 2 (length text - 1)) as Hseq.
    { destruct text; [done |]. simpl. by rewrite Nat.sub_0_r. }
    rewrite Hseq in Hfw. cbn [forward] in Hfw.
    rewrite best_match_no_words in Hfw; [done | lia | simpl; lia]. }
  apply forward_spec in Hfw as [Hinv Hlen]; [| done | done | apply cost_inv_init].
  assert (0 < max_len ts \/ take i text = []) as Hcase'.
  { destruct Hcase as [? | ->]; [by left | right; by rewrite take_nil]. }
  destruct (split_spec ts (take i text) Hcase')
    as (cost' & toks & _ & Hinv' & Hlen' & Hs & _ & _ & Hsum).
  exists toks. split; [done |].
  rewrite length_take_le in Hlen', Hsum by done.
  pose proof (cost_inv_prefix text cost i Hi Hlen Hinv) as Hpre.
  pose proof (cost_inv_unique (take i text) cost' (take (S i) cost) Hinv' Hpre (S i)) as Heq.
  rewrite length_take, Hlen, Hlen' in Heq.
  rewrite take_take, Nat.min_id in Heq. rewrite firstn_all2 in Heq by lia.
  rewrite Heq in Hsum by lia. apply lookup_take_Some in Hsum as [Hsum _]. done.
Qed.

End SplitMore.

Lemma split_raises_only_without_words_witness :
  exists e, split (F := ext Z) {| word_cost := ∅; max_len := 0 |} (s "a") = Raise e /\
            e = ValueError.
Proof.
  pose proof (split_raises_only_without_words (F := ext Z)
                {| word_cost := ∅; max_len := 0 |} (s "a")) as Hs.
  destruct (split _ _) as [toks | e |] eqn:Hsplit.
  - destruct Hs as [Hs | Hs]; [cbn [max_len] in Hs; lia | discriminate Hs].
  - exists e. split; [reflexivity | apply Hs].
  - destruct Hs.
Defined.

Lemma split_unknown_text_witness :
  split demo_ts (s "xy") = Ok [s "x"; s "y"].
Proof.
  apply (split_unknown_text demo_ts (s "xy")).
  - vm_compute. lia.
  - intros a b Hab. change (length (s "xy")) with 2 in Hab.
    destruct a as [| [| a]]; destruct b as [| [| [| b]]]; try lia;
      vm_compute; reflexivity.
Defined.

Lemma cost_array_prefix_witness :
  exists cost toks,
    forward demo_ts (s "thecat") (seq 1 (length (s "thecat"))) [f0] = Ok cost /\
    split demo_ts (take 3 (s "thecat")) = Ok toks /\
    cost !! 3 = Some (total_cost demo_ts toks).
Proof.
  assert (exists cost,
    forward demo_ts (s "thecat") (seq 1 (length (s "thecat"))) [f0] = Ok cost)
    as [cost Hcost] by (eexists; vm_compute; reflexivity).
  destruct (cost_array_prefix demo_ts (s "thecat") cost 3 Hcost) as (toks & Hs & Hl).
  - change (length (s "thecat")) with 6. lia.
  - exists cost, toks. split; [exact Hcost | split; [exact Hs | exact Hl]].
Defined.


Section SplitCase.
Context {F : Type} `{Float F}.
Variable ts : TextSplitter F.

Lemma lower_char_idem (c : ascii) : lower_char (lower_char c) = lower_char c.
Proof. destruct c as [[] [] [] [] [] [] [] []]; reflexivity. Qed.

Lemma lower_idem (t : str) : lower (lower t) = lower t.
Proof.
  unfold lower. rewrite map_map. apply map_ext. intros c. apply lower_char_idem.
Qed.

Lemma slice_lower (a b : nat) (t : str) : slice a b (lower t) = lower (slice a b t).
Proof. unfold slice, lower. by rewrite skipn_map, firstn_map. Qed.

Lemma candidates_lower text cost index :
  candidates ts (lower text) cost index = candidates ts text cost index.
Proof.
  unfold candidates. apply imap_ext. intros k c _. simpl.
  unfold tok_cost. by rewrite slice_lower, lower_idem.
Qed.

Lemma forward_lower text idxs : forall cost,
  forward ts (lower text) idxs cost = forward ts text idxs cost.
Proof.
  induction idxs as [| i idxs IH]; intros cost; [done |]. cbn [forward].
  unfold best_match. rewrite candidates_lower.
  destruct (py_min (candidates ts text cost i)) as [m | |]; [| done..].
  rewrite !bind_Ok. apply IH.
Qed.

Lemma backtrack_lower text cost fuel : forall i out,
  backtrack ts (lower text) fuel cost i (lower_all out)
  = lower_all <$> backtrack ts text fuel cost i out.
Proof.
  induction fuel as [| fuel IH]; intros i out.
  - simpl. by destruct (i =? 0).
  - destruct (decide (i = 0)) as [-> | Hpos]; [done |].
    assert (0 < i) as Hi by lia.
    destruct i as [| i']; [lia |]. cbn [backtrack]. cbn [Nat.eqb].
    unfold best_match. rewrite candidates_lower.
    destruct (py_min (candidates ts text cost (S i'))) as [m | |]; [| done..].
    rewrite !bind_Ok. destruct (cost !! S i') as [c |]; [| done].
    destruct (feqb m.1 c); [| done].
    rewrite <- IH. unfold lower_all. rewrite fmap_app. simpl. by rewrite slice_lower.
Qed.

Lemma split_lower_all (text : str) :
  split ts (lower text) = lower_all <$> split ts text.
Proof.
  unfold split. assert (length (lower text) = length text) as ->.
  { unfold lower. apply length_map. }
  rewrite forward_lower.
  destruct (forward ts text (seq 1 (length text)) [f0]) as [cost | |]; [| done..].
  rewrite !bind_Ok.
  pose proof (backtrack_lower text cost (length text) (length text) []) as Hbt.
  simpl in Hbt. rewrite Hbt.
  destruct (backtrack ts text (length text) cost (length text) []) as [out | |]; [| done..].
  simpl. unfold lower_all. by rewrite fmap_reverse.
Qed.

(** Splitting ignores the case of the text: the tokens of the lower-cased
    text are the tokens of the text, lower-cased, and [split] raises on the
    one when it raises on the other. *)
Theorem split_lower (text : str) :
  split ts (lower text) = lower_all <$> split ts text.
Proof. apply split_lower_all. Qed.

End SplitCase.

(** ** [__init__]: every outcome, and the keys of the dictionary *)

Section InitMore.
Context {F : Type} `{Float F}.

Lemma cost_pairs_outcome N ws : forall number,
  (exists ps, cost_pairs N number ws = Ok ps) \/
  cost_pairs N number ws = Raise ValueError.
Proof.
  induction ws as [| w ws IH]; intros number; cbn [cost_pairs]; [eauto |].
  unfold rank_cost, py_log.
  destruct (flog (fof_nat N)) as [l |]; [| by right]. rewrite bind_Ok.
  destruct (flog (fmul (fof_nat (number + 1)) l)) as [c |]; [| by right].
  rewrite bind_Ok. destruct (IH (number + 1)) as [[ps ->] | ->]; [| by right].
  rewrite bind_Ok. eauto.
Qed.

Lemma dict_of_key (ps : list (str * F)) k :
  k ∈ ps.*1 -> is_Some (dict_of ps !! k).
Proof.
  induction ps as [| p ps IH] using rev_ind; [by intros ?%elem_of_nil |].
  rewrite dict_of_snoc, fmap_app, elem_of_app. simpl.
  destruct (decide (p.1 = k)) as [<- | Hne].
  - intros _. rewrite lookup_insert_eq. eauto.
  - rewrite lookup_insert_ne by done. intros [Hk | Hk%list_elem_of_singleton]; [by apply IH | done].
Qed.

(** After a construction that succeeds, the keys of [word_cost] are exactly
    the words of the list, and [max_len] is the length of one of them, which
    no other exceeds. *)
Theorem word_cost_keys (ws : list str) (ts : TextSplitter F) :
  TextSplitter_init (Some (PyStr <$> ws)) = Ok ts ->
  (forall w, is_Some (word_cost ts !! w) <-> w ∈ ws) /\
  (exists w, w ∈ ws /\ length w = max_len ts) /\
  (forall w, w ∈ ws -> length w <= max_len ts).
Proof.
  intros Hinit.
  apply TextSplitter_init_Ok in Hinit as (ws' & ps & Hws & Hne & Hps & Hwc & Hml).
  injection Hws as Hws. apply (f_equal strs_of) in Hws.
  rewrite !strs_of_PyStr in Hws. subst ws'.
  apply cost_pairs_spec in Hps as [Hkeys _]. rewrite Hwc, Hml, <- Hkeys.
  split; [| split].
  - intros w. split; [apply dict_of_dom | apply dict_of_key].
  - assert (max_list (length <$> ps.*1) ∈ length <$> ps.*1) as Hmax.
    { apply max_list_elem_of. rewrite Hkeys. by destruct ws. }
    apply list_elem_of_fmap in Hmax as (w & Hlen & Hw). by exists w.
  - intros w Hw. apply max_list_elem_of_le. apply list_elem_of_fmap. by exists w.
Qed.

Context `{!FloatLog F}.

(** The outcomes of the construction: it succeeds exactly on the lists of
    two or more strings, raises TypeError exactly on the lists that hold
    something that is not a string, and raises ValueError on [None], on the
    empty list and on the lists of one string. *)
Theorem TextSplitter_init_cases (words : option (list pyobj)) :
  ((exists ts, TextSplitter_init words = Ok ts) <->
   exists ws : list str, words = Some (PyStr <$> ws) /\ 2 <= length ws) /\
  (TextSplitter_init words = Raise TypeError <->
   exists ws, words = Some ws /\ forallb is_str ws = false) /\
  (TextSplitter_init words = Raise ValueError <->
   words = None \/ words = Some [] \/ exists w, words = Some [PyStr w]).
Proof.
  pose proof (TextSplitter_init_outcome words) as Hout.
  destruct words as [[| o os] |].
  - rewrite Hout. split; [| split].
    + split; [by intros [? ?] |]. intros (ws & Hws & Hlen).
      injection Hws as Hws. destruct ws; [simpl in Hlen; lia | done].
    + split; [done |]. by intros (ws & [= <-] & ?).
    + split; [auto | done].
  - destruct (forallb is_str (o :: os)) eqn:Hall.
    + pose proof (strs_of_all_str _ Hall) as Hstrs.
      destruct (length (o :: os) =? 1) eqn:Hone.
      * apply Nat.eqb_eq in Hone. rewrite Hout. split; [| split].
        -- split; [by intros [? ?] |]. intros (ws & [= Hws] & Hlen).
           rewrite Hws, length_fmap in Hone. lia.
        -- split; [done |]. intros (ws & [= <-] & Hf). congruence.
        -- split; [| done]. intros _. right. right.
           destruct os; [| simpl in Hone; lia]. destruct o; try done. by exists w.
      * apply Nat.eqb_neq in Hone. destruct Hout as [ts Hts]. rewrite Hts.
        split; [| split].
        -- split; [| eauto]. intros _. exists (strs_of (o :: os)).
           split; [by rewrite Hstrs |].
           rewrite <- (length_fmap PyStr), Hstrs.
           cbn [length] in Hone |- *. lia.
        -- split; [done |]. intros (ws & [= <-] & Hf). congruence.
        -- split; [done |]. intros [? | [? | [w [= -> ->]]]]; try done.
    + rewrite Hout. split; [| split].
      * split; [by intros [? ?] |]. intros (ws & [= Hws] & _).
        rewrite Hws, forallb_is_str_PyStr in Hall. done.
      * split; [eauto | done].
      * split; [done |]. intros [? | [? | [w [= -> ->]]]]; done.
  - rewrite Hout. split; [| split].
    + split; [by intros [? ?] | by intros (? & ? & ?)].
    + split; [done | by intros (? & ? & ?)].
    + split; [auto | done].
Qed.

End InitMore.

Lemma word_cost_keys_witness :
  is_Some (word_cost demo_ts !! s "cat") /\
  (exists w, w ∈ demo_words /\ length w = max_len demo_ts).
Proof.
  destruct (word_cost_keys demo_words demo_ts demo_ts_init) as (Hkeys & Hmax & _).
  split; [| exact Hmax].
  apply Hkeys. apply (list_elem_of_lookup_2 _ 4). reflexivity.
Defined.

Lemma TextSplitter_init_cases_witness :
  exists ts : TextSplitter (ext R),
    TextSplitter_init (Some (PyStr <$> demo_words)) = Ok ts.
Proof.
  apply (proj1 (TextSplitter_init_cases (F := ext R) (Some (PyStr <$> demo_words)))).
  exists demo_words. split; [reflexivity | unfold demo_words; cbn [length]; lia].
Defined.

(** ** [_detect_repeated_word]: what it returns, and when it returns nothing *)

Section DetectMore.
Context {F : Type} `{Float F}.
Variable a : WordAnalyzer F.

(** The number of values of [range(0, n, d)] is enough to cover [n]. *)
Lemma range_count_covers n d : 0 < d -> n <= (n + d - 1) / d * d.
Proof.
  intros Hd. pose proof (Nat.div_mod_eq (n + d - 1) d) as Hdiv.
  pose proof (Nat.mod_upper_bound (n + d - 1) d) as Hmod. nia.
Qed.

Lemma range_count_exact k d : 0 < d -> (k * d + d - 1) / d = k.
Proof.
  intros Hd. symmetry. apply (Nat.div_unique _ _ _ (d - 1)); lia.
Qed.

(** A word all of whose chunks of [d] characters equal [part] is [part]
    repeated. *)
Lemma chunks_repeat (d : nat) (part : str) : forall m (w : str),
  (forall k, k < m -> take d (drop (k * d) w) = part) ->
  length w <= m * d ->
  w = concat (replicate m part).
Proof.
  induction m as [| m IH]; intros w Hch Hlen.
  - destruct w; [done | simpl in Hlen; lia].
  - cbn [replicate concat]. rewrite <- (take_drop d w) at 1. f_equal.
    + apply (Hch 0). lia.
    + apply IH.
      * intros k Hk. rewrite drop_drop.
        replace (d + k * d) with (S k * d) by lia. apply Hch. lia.
      * rewrite length_drop. lia.
Qed.

Lemma repeat_chunks (part : str) : forall m k,
  k < m ->
  take (length part) (drop (k * length part) (concat (replicate m part))) = part.
Proof.
  induction m as [| m IH]; intros k Hk; [lia |].
  cbn [replicate concat]. destruct k as [| k].
  - change (0 * length part) with 0. rewrite drop_0. by rewrite take_app_length.
  - replace (S k * length part) with (length part + k * length part) by lia.
    rewrite <- drop_drop, drop_app_length. apply IH. lia.
Qed.

Lemma chunks_equal_spec (word : str) d :
  0 < d ->
  chunks_equal word d ((fun k => k * d) <$> seq 0 ((length word + d - 1) / d)) = true <->
  forall k, k < (length word + d - 1) / d -> take d (drop (k * d) word) = take d word.
Proof.
  intros Hd. unfold chunks_equal. rewrite forallb_forall. split.
  - intros Hall k Hk.
    specialize (Hall (k * d)). rewrite bool_decide_eq_true in Hall.
    unfold slice in Hall. replace (k * d + d - k * d) with d in Hall by lia.
    apply Hall. apply in_map_iff. exists k. split; [done |]. apply in_seq. lia.
  - intros Hall start [k [<- Hk%in_seq]]%in_map_iff. rewrite bool_decide_eq_true.
    unfold slice. replace (k * d + d - k * d) with d by lia. apply Hall. lia.
Qed.

Lemma detect_loop_step (word : str) d ds :
  0 < d ->
  detect_loop word (d :: ds) =
  if chunks_equal word d ((fun k => k * d) <$> seq 0 ((length word + d - 1) / d))
  then Ok (Some (take d word)) else detect_loop word ds.
Proof.
  intros Hd. cbn [detect_loop]. unfold range_step.
  destruct (d =? 0) eqn:Hz; [apply Nat.eqb_eq in Hz; lia |].
  by rewrite bind_Ok.
Qed.

Lemma detect_loop_sound (word : str) ds part :
  detect_loop word ds = Ok (Some part) ->
  exists d, d ∈ ds /\ 0 < d /\ part = take d word /\
            word = concat (replicate ((length word + d - 1) / d) part).
Proof.
  induction ds as [| d ds IH]; [done |].
  destruct (decide (d = 0)) as [-> | Hd].
  { cbn [detect_loop]. unfold range_step. simpl. done. }
  rewrite detect_loop_step by lia.
  destruct (chunks_equal _ _ _) eqn:Hch.
  - intros [= <-]. exists d. split; [left |]. split; [lia |]. split; [done |].
    assert (0 < d) as Hpos by lia.
    apply (chunks_repeat d); [| by apply range_count_covers].
    by apply (proj1 (chunks_equal_spec word d Hpos)).
  - intros (d' & Hin & Hrest)%IH. exists d'. split; [by right | done].
Qed.

Lemma repeated_chunks_equal (word : str) d k :
  0 < d -> word <> [] ->
  word = concat (replicate k (take d word)) ->
  chunks_equal word d ((fun k => k * d) <$> seq 0 ((length word + d - 1) / d)) = true.
Proof.
  intros Hd Hne Hrep. apply (proj2 (chunks_equal_spec word d Hd)). intros j Hj.
  destruct (decide (length word <= d)) as [Hle | Hgt].
  - assert ((length word + d - 1) / d = 1) as Hone.
    { assert (0 < length word) by (destruct word; [done | simpl; lia]).
      symmetry. apply (Nat.div_unique _ _ _ (length word - 1)); lia. }
    assert (j = 0) as -> by lia. done.
  - assert (length (take d word) = d) as Hlen by (rewrite length_take; lia).
    assert (length word = k * d) as Hk.
    { rewrite Hrep at 1. rewrite length_concat, fmap_replicate, Hlen.
      clear. induction k as [| k IH]; simpl; [done |]. rewrite IH. lia. }
    rewrite Hk, range_count_exact in Hj by done.
    rewrite Hrep at 1. rewrite <- Hlen at 1 2. by apply repeat_chunks.
Qed.

Lemma detect_loop_outcome (word : str) ds :
  word <> [] -> 0 ∉ ds ->
  (exists d, d ∈ ds /\ detect_loop word ds = Ok (Some (take d word))) \/
  (detect_loop word ds = Ok None /\
   forall d k, d ∈ ds -> word <> concat (replicate k (take d word))).
Proof.
  intros Hne. induction ds as [| d ds IH]; intros Hz.
  - right. split; [done |]. by intros d k ?%elem_of_nil.
  - assert (0 < d) as Hd.
    { destruct d; [| lia]. exfalso. apply Hz. left. }
    rewrite detect_loop_step by done.
    destruct (chunks_equal _ _ _) eqn:Hch.
    + left. exists d. split; [left | done].
    + destruct IH as [(d' & Hin & Hd') | [Hnone Hall]].
      * intros Hin. apply Hz. by right.
      * left. exists d'. split; [by right | done].
      * right. split; [done |]. intros d' k [-> | Hin]%elem_of_cons; [| by apply Hall].
        intros Hrep. by rewrite (repeated_chunks_equal word d k) in Hch.
Qed.

(** A part that [_detect_repeated_word] returns is not empty, is the prefix
    of the word whose length is one of the divisors recorded for the length
    of the word, and the word is that part written one or more times. *)
Theorem detect_repeated_word_sound (word part : str) :
  _detect_repeated_word a word = Ok (Some part) ->
  part <> [] /\
  (exists ds d, divisors a !! length word = Some ds /\ d ∈ ds /\ part = take d word) /\
  exists k, 0 < k /\ word = concat (replicate k part).
Proof.
  unfold _detect_repeated_word.
  destruct (length word =? 0) eqn:Hlen; [done |]. apply Nat.eqb_neq in Hlen.
  destruct (divisors a !! length word) as [[| d0 ds] |] eqn:Hds; [done | | done].
  intros (d & Hin & Hd & Hpart & Hrep)%detect_loop_sound.
  split; [| split].
  - subst part. destruct word; [done |]. destruct d; [lia | done].
  - by exists (d0 :: ds), d.
  - exists ((length word + d - 1) / d). split; [| done].
    pose proof (range_count_covers (length word) d Hd). nia.
Qed.

(** When no divisor recorded for the length of the word is 0,
    [_detect_repeated_word] returns; it returns [None] exactly when the word
    is not, for any recorded divisor [d], its first [d] characters written
    some number of times. *)
Theorem detect_repeated_word_none (word : str) (ds : list nat) :
  word <> [] ->
  divisors a !! length word = Some ds ->
  0 ∉ ds ->
  (exists r, _detect_repeated_word a word = Ok r) /\
  (_detect_repeated_word a word = Ok None <->
   forall d k, d ∈ ds -> word <> concat (replicate k (take d word))).
Proof.
  intros Hne Hds Hz. unfold _detect_repeated_word.
  destruct (length word =? 0) eqn:Hlen.
  { apply Nat.eqb_eq in Hlen. by destruct word. }
  rewrite Hds. destruct ds as [| d0 ds].
  { split; [eauto |]. split; [| done]. by intros _ d k ?%elem_of_nil. }
  destruct (detect_loop_outcome word (d0 :: ds) Hne Hz)
    as [(d & Hin & Hd) | [Hnone Hall]].
  - rewrite Hd. split; [eauto |]. split; [done |]. intros Hall. exfalso.
    apply detect_loop_sound in Hd as (d' & Hin' & _ & Heq & Hrep).
    rewrite Heq in Hrep. by eapply Hall.
  - rewrite Hnone. split; [eauto | done].
Qed.

(** [_detect_repeated_word] raises nothing but the ValueError of a [range]
    whose step is 0, and only when 0 is among the recorded divisors. *)
Theorem detect_repeated_word_raises (word : str) (e : exn) :
  _detect_repeated_word a word = Raise e ->
  e = ValueError /\ exists ds, divisors a !! length word = Some ds /\ 0 ∈ ds.
Proof.
  unfold _detect_repeated_word. destruct (length word =? 0); [done |].
  destruct (divisors a !! length word) as [[| d0 ds] |]; [done | | done].
  intros Hr. enough (e = ValueError /\ 0 ∈ d0 :: ds) as [? ?] by eauto.
  induction (d0 :: ds) as [| d l IH]; [done |].
  destruct (decide (d = 0)) as [-> | Hd].
  - cbn [detect_loop] in Hr. unfold range_step in Hr. simpl in Hr.
    injection Hr as <-. split; [done | left].
  - rewrite detect_loop_step in Hr by lia.
    destruct (chunks_equal _ _ _); [done |].
    destruct (IH Hr) as [? ?]. split; [done | by right].
Qed.

End DetectMore.

Lemma detect_repeated_word_sound_witness :
  s "ab" <> [] /\
  (exists ds d, divisors demo_an !! length (s "abab") = Some ds /\ d ∈ ds /\
                s "ab" = take d (s "abab")) /\
  exists k, 0 < k /\ s "abab" = concat (replicate k (s "ab")).
Proof.
  apply (detect_repeated_word_sound demo_an (s "abab") (s "ab")).
  vm_compute. reflexivity.
Defined.

Lemma detect_repeated_word_none_witness :
  (exists r, _detect_repeated_word demo_an (s "abcd") = Ok r) /\
  (_detect_repeated_word demo_an (s "abcd") = Ok None <->
   forall d k, d ∈ [1; 2] -> s "abcd" <> concat (replicate k (take d (s "abcd")))).
Proof.
  apply (detect_repeated_word_none demo_an (s "abcd") [1; 2]).
  - discriminate.
  - vm_compute. reflexivity.
  - intros Hin. apply elem_of_cons in Hin as [Hin | Hin]; [discriminate |].
    apply elem_of_cons in Hin as [Hin | Hin]; [discriminate |].
    by apply elem_of_nil in Hin.
Defined.

Lemma detect_repeated_word_raises_witness :
  ValueError = ValueError /\
  exists ds, divisors demo_an_zero !! length (s "a") = Some ds /\ 0 ∈ ds.
Proof.
  apply (detect_repeated_word_raises demo_an_zero (s "a") ValueError).
  vm_compute. reflexivity.
Defined.

(** ** [_get_similar_words]: how many words, which, and in what order *)

Section SortedItems.
Context {F : Type} `{Float F}.
Variable a : WordAnalyzer F.

Lemma insert_sorted_perm (x : F * str) l : insert_sorted x l ≡ₚ x :: l.
Proof.
  induction l as [| y l IH]; cbn [insert_sorted]; [done |].
  destruct (entry_ltb x y); [done |]. rewrite IH. apply Permutation_swap.
Qed.

(** [sorted] keeps the items. *)
Lemma py_sorted_perm (l : list (F * str)) : py_sorted l ≡ₚ l.
Proof.
  unfold py_sorted.
  enough (forall acc, fold_left (fun acc x => insert_sorted x acc) l acc ≡ₚ acc ++ l)
    as Hgen by apply (Hgen []).
  induction l as [| x l IH]; intros acc; cbn [fold_left].
  - by rewrite app_nil_r.
  - rewrite IH, insert_sorted_perm. apply Permutation_middle.
Qed.

Lemma cost_entries_spec found : forall arr,
  cost_entries a found = Ok arr ->
  arr.*2 = found.*2 /\ Forall (fun e => _get_total_cost a e.2 = Ok e.1) arr.
Proof.
  induction found as [| it found IH]; intros arr; cbn [cost_entries].
  - intros [= <-]. by split.
  - destruct (_get_total_cost a it.2) as [c | |] eqn:Hc; [| done..]. rewrite bind_Ok.
    destruct (cost_entries a found) as [arr' | |]; [| done..]. rewrite bind_Ok.
    intros [= <-]. destruct (IH arr' eq_refl) as [Hw Hall].
    split; [cbn; by rewrite Hw | by constructor].
Qed.

Lemma get_similar_words_Some word ws :
  _get_similar_words a word = Ok (Some ws) ->
  exists arr, cost_entries a (tree_find a word (distance a)) = Ok arr /\
              arr <> [] /\
              ws = (take (number_similar_words a) (py_sorted arr)).*2.
Proof.
  unfold _get_similar_words.
  destruct (cost_entries a _) as [arr | |]; [| done..]. rewrite bind_Ok.
  destruct arr as [| e arr]; [done |]. intros [= <-]. by exists (e :: arr).
Qed.

Lemma get_similar_words_from_index word ws w :
  _get_similar_words a word = Ok (Some ws) ->
  w ∈ ws -> w ∈ (tree_find a word (distance a)).*2.
Proof.
  intros (arr & Harr & _ & ->)%get_similar_words_Some.
  destruct (cost_entries_spec _ _ Harr) as [Hwords _].
  intros (e & -> & Hin)%list_elem_of_fmap. rewrite <- Hwords.
  apply list_elem_of_fmap_2. rewrite <- (py_sorted_perm arr).
  apply elem_of_take in Hin as (i & Hi & _). by eapply list_elem_of_lookup_2.
Qed.

End SortedItems.

Section SimilarMore.
Context {F : Type} `{FloatOrder F}.
Variable a : WordAnalyzer F.

Lemma entry_ltb_le (x y : F * str) : entry_ltb x y = true -> cost_le x y.
Proof.
  unfold entry_ltb, cost_le. destruct (feqb x.1 y.1) eqn:Heq.
  - intros _. by apply feqb_true in Heq as [? _].
  - apply fltb_true.
Qed.

Lemma entry_ltb_ge (x y : F * str) : entry_ltb x y = false -> cost_le y x.
Proof.
  unfold entry_ltb, cost_le. destruct (feqb x.1 y.1) eqn:Heq.
  - intros _. by apply feqb_true in Heq as [_ ?].
  - by intros ?%fltb_false.
Qed.

Lemma insert_sorted_sorted (x : F * str) l :
  StronglySorted cost_le l -> StronglySorted cost_le (insert_sorted x l).
Proof.
  induction 1 as [| y l Hs IH Hall]; cbn [insert_sorted].
  - by repeat constructor.
  - destruct (entry_ltb x y) eqn:Hlt.
    + apply entry_ltb_le in Hlt. constructor; [by constructor |].
      constructor; [done |]. eapply Forall_impl; [exact Hall |].
      intros z Hz. unfold cost_le in *. by eapply fle_trans.
    + apply entry_ltb_ge in Hlt. constructor; [done |].
      rewrite insert_sorted_perm. by constructor.
Qed.

Lemma py_sorted_sorted (l : list (F * str)) : StronglySorted cost_le (py_sorted l).
Proof.
  unfold py_sorted.
  enough (forall acc, StronglySorted cost_le acc ->
            StronglySorted cost_le (fold_left (fun acc x => insert_sorted x acc) l acc))
    as Hgen by (apply (Hgen []); constructor).
  induction l as [| x l IH]; intros acc Hacc; cbn [fold_left]; [done |].
  apply IH. by apply insert_sorted_sorted.
Qed.

(** When the frequency list has a word that is not empty,
    [_get_similar_words] returns; it returns [None] exactly when the index
    finds nothing, and otherwise a list of words the index found, as many
    as were found up to [number_similar_words]. *)
Theorem get_similar_words_found (word : str) :
  0 < max_len (splitter a) ->
  exists r, _get_similar_words a word = Ok r /\
    (r = None <-> tree_find a word (distance a) = []) /\
    forall ws, r = Some ws ->
      length ws = Nat.min (number_similar_words a)
                          (length (tree_find a word (distance a))) /\
      forall w, w ∈ ws -> w ∈ (tree_find a word (distance a)).*2.
Proof.
  intros HL.
  destruct (cost_entries_returns a (tree_find a word (distance a)) HL) as [arr Harr].
  destruct (cost_entries_spec _ _ _ Harr) as [Hwords _].
  unfold _get_similar_words. rewrite Harr, bind_Ok.
  destruct arr as [| e arr].
  - exists None. split; [done |]. split.
    + split; [| done]. intros _.
      destruct (tree_find a word (distance a)); [done | discriminate Hwords].
    + by intros ws [=].
  - eexists. split; [done |]. split.
    + split; [done |]. intros Hnil. rewrite Hnil in Hwords. discriminate Hwords.
    + intros ws [= <-]. split.
      * rewrite length_fmap, length_take, (Permutation_length (py_sorted_perm _)).
        rewrite <- (length_fmap snd (tree_find _ _ _)), <- Hwords, length_fmap. done.
      * intros w (e' & -> & Hin)%list_elem_of_fmap. rewrite <- Hwords.
        apply list_elem_of_fmap_2. rewrite <- (py_sorted_perm (e :: arr)).
        apply elem_of_take in Hin as (i & Hi & _). by eapply list_elem_of_lookup_2.
Qed.

(** The list [_get_similar_words] returns is in order of total cost, and no
    word the index found and the list leaves out costs less than a word of
    the list. *)
Theorem get_similar_words_cheapest (word : str) (ws : list str) :
  _get_similar_words a word = Ok (Some ws) ->
  (forall i j wi wj ci cj, i < j -> ws !! i = Some wi -> ws !! j = Some wj ->
     _get_total_cost a wi = Ok ci -> _get_total_cost a wj = Ok cj -> fle ci cj) /\
  (forall w v cw cv, w ∈ ws -> v ∈ (tree_find a word (distance a)).*2 -> v ∉ ws ->
     _get_total_cost a w = Ok cw -> _get_total_cost a v = Ok cv -> fle cw cv).
Proof.
  intros (arr & Harr & _ & ->)%get_similar_words_Some.
  destruct (cost_entries_spec _ _ _ Harr) as [Hwords Hcosts].
  rewrite Forall_forall in Hcosts.
  pose proof (py_sorted_perm arr) as Hperm.
  pose proof (py_sorted_sorted arr) as Hsorted.
  set (n := number_similar_words a). set (sorted := py_sorted arr) in *.
  assert (forall e c, e ∈ sorted -> _get_total_cost a e.2 = Ok c -> e.1 = c) as Hcost.
  { intros e c He Hc. rewrite Hperm in He. apply Hcosts in He. congruence. }
  split.
  - intros i j wi wj ci cj Hij Hi Hj Hci Hcj.
    apply list_lookup_fmap_Some in Hi as (ei & -> & Hei).
    apply list_lookup_fmap_Some in Hj as (ej & -> & Hej).
    apply lookup_take_Some in Hei as [Hei _]. apply lookup_take_Some in Hej as [Hej _].
    assert (ei ∈ take j sorted) as Hin_i.
    { apply elem_of_take. by exists i. }
    assert (ej ∈ drop j sorted) as Hin_j.
    { apply (list_elem_of_lookup_2 _ 0). rewrite lookup_drop. by rewrite Nat.add_0_r. }
    rewrite <- (take_drop j sorted) in Hsorted.
    pose proof (StronglySorted_app_1_elem_of _ _ _ _ _ Hsorted Hin_i Hin_j) as Hle.
    unfold cost_le in Hle.
    rewrite <- (Hcost ei ci), <- (Hcost ej cj); [done | | done | | done].
    + by eapply list_elem_of_lookup_2.
    + by eapply list_elem_of_lookup_2.
  - intros w v cw cv (ew & -> & Hew)%list_elem_of_fmap Hv Hnot Hcw Hcv.
    rewrite <- Hwords in Hv. apply list_elem_of_fmap in Hv as (ev & -> & Hev).
    rewrite <- Hperm, <- (take_drop n sorted), elem_of_app in Hev.
    destruct Hev as [Hev | Hev].
    { exfalso. apply Hnot. by apply list_elem_of_fmap_2. }
    rewrite <- (take_drop n sorted) in Hsorted.
    pose proof (StronglySorted_app_1_elem_of _ _ _ _ _ Hsorted Hew Hev) as Hle.
    unfold cost_le in Hle.
    rewrite <- (Hcost ew cw), <- (Hcost ev cv); [done | | done | | done].
    + rewrite <- (take_drop n sorted), elem_of_app. by right.
    + rewrite <- (take_drop n sorted), elem_of_app. by left.
Qed.

End SimilarMore.

Lemma get_similar_words_found_witness :
  exists r, _get_similar_words demo_an (s "the") = Ok r /\
    (r = None <-> tree_find demo_an (s "the") (distance demo_an) = []) /\
    forall ws, r = Some ws ->
      length ws = Nat.min (number_similar_words demo_an)
                          (length (tree_find demo_an (s "the") (distance demo_an))) /\
      forall w, w ∈ ws -> w ∈ (tree_find demo_an (s "the") (distance demo_an)).*2.
Proof.
  apply (get_similar_words_found demo_an (s "the")). vm_compute. lia.
Defined.

Lemma get_similar_words_cheapest_witness :
  (forall i j wi wj ci cj, i < j ->
     [s "the"; s "she"] !! i = Some wi -> [s "the"; s "she"] !! j = Some wj ->
     _get_total_cost demo_an wi = Ok ci -> _get_total_cost demo_an wj = Ok cj ->
     fle ci cj) /\
  (forall w v cw cv, w ∈ [s "the"; s "she"] ->
     v ∈ (tree_find demo_an (s "the") (distance demo_an)).*2 ->
     v ∉ [s "the"; s "she"] ->
     _get_total_cost demo_an w = Ok cw -> _get_total_cost demo_an v = Ok cv ->
     fle cw cv).
Proof.
  apply (get_similar_words_cheapest demo_an (s "the") [s "the"; s "she"]).
  vm_compute. reflexivity.
Defined.

(** ** [_get_correct_words]: where the corrected words come from *)

Section CorrectMore.
Context {F : Type} `{Float F}.
Variable a : WordAnalyzer F.
Variable clear : str -> result str.

Lemma replace_correcting_parts_words parts sims i j : forall full,
  replace_correcting_parts a parts sims i j = Ok full ->
  forall e, e ∈ full ->
    exists sw, sw ∈ sims /\ e.2 = join (take i parts ++ [sw] ++ drop (j + 1) parts).
Proof.
  induction sims as [| sw sims IH]; intros full; cbn [replace_correcting_parts].
  - intros [= <-] e ?%elem_of_nil. done.
  - destruct (_get_total_cost a _) as [c | |]; [| done..]. rewrite bind_Ok.
    destruct (replace_correcting_parts a parts sims i j) as [rest | |]; [| done..].
    rewrite bind_Ok. intros [= <-] e [-> | He]%elem_of_cons.
    + exists sw. split; [left | done].
    + destruct (IH rest eq_refl e He) as (sw' & Hin & Heq). exists sw'. split; [by right | done].
Qed.

Lemma splice_loop_words parts i js : forall ev ev',
  splice_loop a parts i js ev = Ok ev' ->
  (forall j, j ∈ js -> i + 2 <= j <= length parts /\ j - i <= threshold a) ->
  (forall e, e ∈ ev -> splice_of a parts e.2) ->
  forall e, e ∈ ev' -> splice_of a parts e.2.
Proof.
  induction js as [| j js IH]; intros ev ev'; cbn [splice_loop].
  - by intros [= <-].
  - intros Hloop Hjs Hev.
    assert (forall j', j' ∈ js -> i + 2 <= j' <= length parts /\ j' - i <= threshold a)
      as Hjs' by (intros j' Hj'; apply Hjs; by right).
    destruct (Hjs j) as [Hj Hth]; [left |].
    destruct (_get_similar_words a (join (slice i j parts))) as [sim | |] eqn:Hsim;
      [| done..].
    rewrite bind_Ok in Hloop.
    destruct sim as [[| w ws] |]; try by eapply IH.
    destruct (replace_correcting_parts a parts (w :: ws) i (j - 1)) as [full | |] eqn:Hfull;
      [| done..].
    rewrite bind_Ok in Hloop. eapply IH; [exact Hloop | done |].
    intros e [He | He]%elem_of_app; [by apply Hev |].
    destruct (replace_correcting_parts_words _ _ _ _ _ Hfull e He) as (sw & Hsw & Heq).
    exists i, j, sw. split; [done |]. split; [done |].
    split; [by eapply get_similar_words_from_index |].
    rewrite Heq. by replace (j - 1 + 1) with j by lia.
Qed.

Lemma parts_loop_words parts idxs : forall ev ev',
  parts_loop a parts idxs ev = Ok ev' ->
  (forall e, e ∈ ev -> splice_of a parts e.2) ->
  forall e, e ∈ ev' -> splice_of a parts e.2.
Proof.
  induction idxs as [| i idxs IH]; intros ev ev'; cbn [parts_loop].
  - by intros [= <-].
  - intros Hloop Hev.
    destruct (splice_loop a parts i _ ev) as [ev1 | |] eqn:Hsplice; [| done..].
    rewrite bind_Ok in Hloop. eapply IH; [exact Hloop |].
    eapply splice_loop_words; [exact Hsplice | | exact Hev].
    intros j Hj%elem_of_seq.
    destruct (threshold a <=? length parts - i) eqn:Hle;
      [apply Nat.leb_le in Hle | apply Nat.leb_gt in Hle]; lia.
Qed.

(** Every word of the set [_get_correct_words] returns is the cleaned word
    or a splice: the parts of the cleaned word with a run of 2 to [threshold]
    neighbouring parts replaced by a word that the index finds, within
    [distance], for the run joined into one word. *)
Theorem get_correct_words_members (w : str) (cw : option str) (word : str)
    (parts : list str) (r : gset str) (c : str) :
  cleaned_word a clear w cw = Ok word ->
  split (splitter a) word = Ok parts ->
  _get_correct_words a clear w cw = Ok r ->
  c ∈ r ->
  c = word \/ splice_of a parts c.
Proof.
  intros Hc Hs Hr Hin. rewrite (get_correct_words_eq a clear w cw word parts Hc Hs) in Hr.
  destruct (length parts <? 2).
  - destruct (few_parts_loop a parts []); [| done..]. rewrite bind_Ok in Hr.
    injection Hr as <-. left.
    destruct (truthy word); [by apply elem_of_singleton in Hin | by apply elem_of_empty in Hin].
  - destruct (parts_loop a parts (seq 0 (length parts)) []) as [ev | |] eqn:Hloop;
      [| done..].
    rewrite bind_Ok in Hr. injection Hr as <-. cbv zeta in Hin.
    apply elem_of_list_to_set, list_elem_of_fmap in Hin as (e & -> & He).
    assert (e ∈ take (number_of_corrected_words a) (py_sorted ev) -> splice_of a parts e.2)
      as Htake.
    { intros (k & Hk & _)%elem_of_take. apply list_elem_of_lookup_2 in Hk.
      rewrite py_sorted_perm in Hk.
      eapply parts_loop_words; [exact Hloop | | exact Hk]. by intros ? ?%elem_of_nil. }
    destruct (truthy word); [| right; by apply Htake].
    apply elem_of_app in He as [He | ->%list_elem_of_singleton]; [right; by apply Htake | by left].
Qed.

End CorrectMore.

Lemma get_correct_words_members_witness :
  exists parts, split (splitter demo_an) (s "thof") = Ok parts /\
    (s "theof" = s "thof" \/ splice_of demo_an parts (s "theof")).
Proof.
  exists [s "t"; s "h"; s "o"; s "f"]. split; [vm_compute; reflexivity |].
  apply (get_correct_words_members demo_an demo_clear (s "thof") None (s "thof")
           [s "t"; s "h"; s "o"; s "f"] {[ s "theof"; s "thof" ]} (s "theof")).
  - vm_compute. reflexivity.
  - vm_compute. reflexivity.
  - vm_compute. reflexivity.
  - apply elem_of_union. left. by apply elem_of_singleton.
Defined.

(** ** [get_correct_words] of analyzer/word_analyzer.py *)

Section TopCorrectMore.
Context {F : Type} `{Float F}.
Variable a : Top.WordAnalyzer F.
Variable clear : str -> result str.

Lemma top_cost_entries_words found : forall arr,
  Top.cost_entries a found = Ok arr -> arr.*2 = found.*2.
Proof.
  induction found as [| it found IH]; intros arr; cbn [Top.cost_entries].
  - by intros [= <-].
  - destruct (Top.get_total_cost a it.2) as [c | |]; [| done..]. rewrite bind_Ok.
    destruct (Top.cost_entries a found) as [arr' | |]; [| done..]. rewrite bind_Ok.
    intros [= <-]. cbn. by rewrite (IH arr' eq_refl).
Qed.

Lemma top_get_similar_words_from_index word n d ws w :
  Top.get_similar_words a word n d = Ok (Some ws) ->
  w ∈ ws -> w ∈ (Top.tree_find a word d).*2.
Proof.
  unfold Top.get_similar_words.
  destruct (Top.cost_entries a _) as [arr | |] eqn:Harr; [| done..]. rewrite bind_Ok.
  destruct arr as [| e arr]; [done |]. intros [= <-].
  intros (e' & -> & Hin)%list_elem_of_fmap.
  rewrite <- (top_cost_entries_words _ _ Harr).
  apply list_elem_of_fmap_2. rewrite <- (py_sorted_perm (e :: arr)).
  apply elem_of_take in Hin as (i & Hi & _). by eapply list_elem_of_lookup_2.
Qed.

Lemma top_replace_correcting_parts_words parts sims i j : forall full,
  Top.replace_correcting_parts a parts sims i j = Ok full ->
  forall e, e ∈ full ->
    exists sw, sw ∈ sims /\ e.2 = join (take i parts ++ [sw] ++ drop j parts).
Proof.
  induction sims as [| sw sims IH]; intros full; cbn [Top.replace_correcting_parts].
  - intros [= <-] e ?%elem_of_nil. done.
  - destruct (Top.get_total_cost a _) as [c | |]; [| done..]. rewrite bind_Ok.
    destruct (Top.replace_correcting_parts a parts sims i j) as [rest | |]; [| done..].
    rewrite bind_Ok. intros [= <-] e [-> | He]%elem_of_cons.
    + exists sw. split; [left | done].
    + destruct (IH rest eq_refl e He) as (sw' & Hin & Heq). exists sw'. split; [by right | done].
Qed.

Lemma top_splice_loop_words th parts i js : forall ev ev',
  Top.splice_loop a parts i js ev = Ok ev' ->
  (forall j, j ∈ js -> i + 2 <= j <= length parts /\ j - i <= th) ->
  (forall e, e ∈ ev -> top_splice_of a th parts e.2) ->
  forall e, e ∈ ev' -> top_splice_of a th parts e.2.
Proof.
  induction js as [| j js IH]; intros ev ev'; cbn [Top.splice_loop].
  - by intros [= <-].
  - intros Hloop Hjs Hev.
    assert (forall j', j' ∈ js -> i + 2 <= j' <= length parts /\ j' - i <= th)
      as Hjs' by (intros j' Hj'; apply Hjs; by right).
    destruct (Hjs j) as [Hj Hth]; [left |].
    destruct (Top.get_similar_words a (join (slice i j parts)) 4 1) as [sim | |] eqn:Hsim;
      [| done..].
    rewrite bind_Ok in Hloop.
    destruct sim as [[| w ws] |]; try by eapply IH.
    destruct (Top.replace_correcting_parts a parts (w :: ws) i (j - 1))
      as [full | |] eqn:Hfull; [| done..].
    rewrite bind_Ok in Hloop. eapply IH; [exact Hloop | done |].
    intros e [He | He]%elem_of_app; [by apply Hev |].
    destruct (top_replace_correcting_parts_words _ _ _ _ _ Hfull e He) as (sw & Hsw & Heq).
    exists i, j, sw. split; [done |]. split; [done |].
    split; [by eapply top_get_similar_words_from_index | done].
Qed.

Lemma top_parts_loop_words th parts idxs : forall ev ev',
  Top.parts_loop a th parts idxs ev = Ok ev' ->
  (forall e, e ∈ ev -> top_splice_of a th parts e.2) ->
  forall e, e ∈ ev' -> top_splice_of a th parts e.2.
Proof.
  induction idxs as [| i idxs IH]; intros ev ev'; cbn [Top.parts_loop].
  - by intros [= <-].
  - intros Hloop Hev.
    destruct (Top.splice_loop a parts i _ ev) as [ev1 | |] eqn:Hsplice; [| done..].
    rewrite bind_Ok in Hloop. eapply IH; [exact Hloop |].
    eapply top_splice_loop_words; [exact Hsplice | | exact Hev].
    intros j Hj%elem_of_seq.
    destruct (th <=? length parts - i) eqn:Hle;
      [apply Nat.leb_le in Hle | apply Nat.leb_gt in Hle]; lia.
Qed.

(** The list [get_correct_words] of analyzer/word_analyzer.py returns has
    [number_of_corrected_words] words at most, and each is a splice that
    keeps the last part of the run it replaces: the parts before the run,
    a word the index finds within distance 1 of the run joined, and the
    parts from the last of the run on. The cleaned word itself is not
    added. *)
Theorem top_get_correct_words_members (w word : str) (parts : list str)
    (threshold number_of_corrected_words : nat) (r : list str) :
  clear w = Ok word ->
  split (Top.splitter a) word = Ok parts ->
  Top.get_correct_words a clear w threshold number_of_corrected_words = Ok r ->
  length r <= number_of_corrected_words /\
  forall c, c ∈ r -> top_splice_of a threshold parts c.
Proof.
  intros Hc Hs. unfold Top.get_correct_words. rewrite Hc, bind_Ok, Hs, bind_Ok.
  destruct (Top.parts_loop a threshold parts (seq 0 (length parts)) []) as [ev | |] eqn:Hloop;
    [| done..].
  rewrite bind_Ok. intros [= <-]. split.
  - rewrite length_fmap, length_take. lia.
  - intros c (e & -> & (k & Hk & _)%elem_of_take)%list_elem_of_fmap.
    apply list_elem_of_lookup_2 in Hk. rewrite py_sorted_perm in Hk.
    eapply top_parts_loop_words; [exact Hloop | | exact Hk]. by intros ? ?%elem_of_nil.
Qed.

End TopCorrectMore.

Lemma top_get_correct_words_members_witness :
  length [s "thehof"; s "thoff"] <= 4 /\
  forall c, c ∈ [s "thehof"; s "thoff"] ->
    top_splice_of demo_top_an 2 [s "t"; s "h"; s "o"; s "f"] c.
Proof.
  apply (top_get_correct_words_members demo_top_an demo_clear (s "thof") (s "thof")).
  - reflexivity.
  - vm_compute. reflexivity.
  - vm_compute. reflexivity.
Defined.

(** ** [_get_total_cost] and [_get_base_parts] over the tokens of [split] *)

Section TokenUsers.
Context {F : Type} `{Float F}.
Variable a : WordAnalyzer F.
Variable stem : str -> str.

(** A member of a list of tokens is a slice of what they concatenate to. *)
Lemma concat_elem_slice (toks : list str) (t : str) :
  t ∈ toks ->
  exists i, slice i (i + length t) (concat toks) = t /\
            i + length t <= length (concat toks).
Proof.
  intros (l1 & l2 & ->)%list_elem_of_split. exists (length (concat l1)).
  rewrite concat_app, concat_cons. unfold slice.
  replace (length (concat l1) + length t - length (concat l1)) with (length t) by lia.
  rewrite drop_app_length, take_app_length. split; [done |].
  rewrite !length_app. lia.
Qed.

Lemma base_parts_loop_lower parts : forall basics,
  base_parts_loop a stem (lower_all parts) basics = base_parts_loop a stem parts basics.
Proof.
  induction parts as [| part parts IH]; intros basics; [done |].
  unfold lower_all in *. rewrite fmap_cons. cbn [base_parts_loop].
  rewrite lower_idem. destruct (cost_truthy _); apply IH.
Qed.

Lemma base_parts_loop_members parts : forall basics b,
  b ∈ base_parts_loop a stem parts basics ->
  b ∈ basics \/
  exists t c, t ∈ parts /\ word_cost (splitter a) !! lower t = Some c /\
              feqb c f0 = false /\ b = lower (stem (lower t)).
Proof.
  induction parts as [| part parts IH]; intros basics b; cbn [base_parts_loop]; [by left |].
  destruct (word_cost (splitter a) !! lower part) as [c |] eqn:Hc; cbn [cost_truthy].
  - destruct (feqb c f0) eqn:Hz; cbn [negb].
    + intros [Hb | (t & c' & Ht & Hrest)]%IH; [by left |].
      right. exists t, c'. split; [by right | done].
    + intros [Hb | (t & c' & Ht & Hrest)]%IH.
      * apply elem_of_union in Hb as [Hb | ->%elem_of_singleton]; [by left |].
        right. exists part, c. split; [left | done].
      * right. exists t, c'. split; [by right | done].
  - intros [Hb | (t & c' & Ht & Hrest)]%IH; [by left |].
    right. exists t, c'. split; [by right | done].
Qed.

(** [_get_base_parts] ignores the case of the word. *)
Theorem get_base_parts_lower (word : str) :
  _get_base_parts a stem (lower word) = _get_base_parts a stem word.
Proof.
  unfold _get_base_parts. rewrite split_lower_all.
  destruct (split (splitter a) word) as [parts | |]; [| done..].
  cbn. by rewrite base_parts_loop_lower.
Qed.

Context `{!FloatOrder F}.

(** Every base part [_get_base_parts] returns is the stem, lower-cased, of
    a substring of the word that, lower-cased, is a word of the frequency
    list with a cost other than 0. *)
Theorem get_base_parts_members (word : str) (r : gset str) (b : str) :
  _get_base_parts a stem word = Ok r ->
  b ∈ r ->
  exists i j c, i < j <= length word /\
    word_cost (splitter a) !! lower (slice i j word) = Some c /\
    feqb c f0 = false /\
    b = lower (stem (lower (slice i j word))).
Proof.
  unfold _get_base_parts.
  destruct (split (splitter a) word) as [parts | |] eqn:Hs; [| done..].
  rewrite bind_Ok. intros [= <-] Hb.
  apply base_parts_loop_members in Hb as [Hb | (t & c & Ht & Hc & Hz & ->)];
    [by apply elem_of_empty in Hb |].
  destruct (split_spec (splitter a) word (split_ok_inv _ _ _ Hs))
    as (cost & toks & _ & _ & _ & Hs' & Hcat & Hlen & _).
  assert (toks = parts) as -> by congruence.
  rewrite Forall_forall in Hlen. specialize (Hlen t Ht).
  destruct (concat_elem_slice parts t Ht) as (i & Hslice & Hbound).
  rewrite Hcat in Hslice, Hbound.
  exists i, (i + length t), c. rewrite Hslice. split; [lia | done].
Qed.

(** For a text in lower case that [split] cuts into words of the frequency
    list only, [_get_total_cost] is the summed cost the splitter itself
    gives to those tokens; [default_cost] plays no part. *)
Theorem get_total_cost_known (text : str) (toks : list str) :
  lower text = text ->
  split (splitter a) text = Ok toks ->
  Forall (fun t => is_Some (word_cost (splitter a) !! t)) toks ->
  _get_total_cost a text = Ok (total_cost (splitter a) toks).
Proof.
  intros Hlow Hs Hknown. unfold _get_total_cost, total_cost. rewrite Hs, bind_Ok.
  do 2 f_equal. apply list_fmap_ext. intros k t Hk.
  apply list_elem_of_lookup_2 in Hk.
  destruct (split_spec (splitter a) text (split_ok_inv _ _ _ Hs))
    as (cost & toks' & _ & _ & _ & Hs' & Hcat & _).
  assert (toks' = toks) as -> by congruence.
  destruct (concat_elem_slice toks t Hk) as (i & Hslice & _).
  rewrite Hcat in Hslice.
  assert (lower t = t) as Ht.
  { rewrite <- Hslice, <- slice_lower. by rewrite Hlow. }
  rewrite Forall_forall in Hknown. destruct (Hknown t Hk) as [c Hc].
  unfold tok_cost. rewrite Ht, Hc. done.
Qed.

End TokenUsers.

Lemma get_base_parts_members_witness :
  exists i j c, i < j <= length (s "TheCat") /\
    word_cost (splitter demo_an) !! lower (slice i j (s "TheCat")) = Some c /\
    feqb c f0 = false /\
    s "cat" = lower (lower (slice i j (s "TheCat"))).
Proof.
  apply (get_base_parts_members demo_an (fun w => w) (s "TheCat") {[ s "the"; s "cat" ]}).
  - vm_compute. reflexivity.
  - apply elem_of_union. right. by apply elem_of_singleton.
Defined.

Lemma get_total_cost_known_witness :
  _get_total_cost demo_an (s "thecat") = Ok (total_cost (splitter demo_an) [s "the"; s "cat"]).
Proof.
  apply (get_total_cost_known demo_an (s "thecat") [s "the"; s "cat"]).
  - reflexivity.
  - vm_compute. reflexivity.
  - constructor; [| constructor; [| constructor]]; eexists; vm_compute; reflexivity.
Defined.
